(** * go-promise: the settlement state machine of [Promise]

    A shallow embedding of [main.go].  A goroutine is a finite tree of
    accesses to shared memory (fields of a [Promise], its two buffered
    channels); the Go methods are written in that monad, statement by
    statement; a pool of goroutines runs them under every interleaving. *)

From stdpp Require Import base option list strings relations pretty.
From Stdlib Require Import ZArith.

Open Scope Z_scope.

(** ** Data *)

(** A [*Promise] is an index into the store of allocated promises. *)
Abbreviation loc := nat.

(** The dynamic values ([interface{}]) that travel through a promise.  The
    code only ever asks of a value whether it is a [*Promise]. *)
Inductive value : Type :=
| VNil
| VInt (n : Z)
| VStr (s : string)
| VPromise (p : loc).

(** Go's [error]: the nil interface, or an error with its [Error()] text. *)
Inductive error : Type :=
| ErrNil
| Err (msg : string).

(** What [recover()] hands to [handlePanic], seen through its type switch:
    nil, an [error] (with its [Error()] text), or any other value (with its
    [fmt.Sprint] text).  An error stands here for the text that its
    [Error()] returns: an error whose [Error()] itself panics is not
    represented, and what [handlePanic] does with one (the panic of
    [err.Error()] leaves the deferred call) is outside this model. *)
Inductive recovered : Type :=
| RecoveredNil
| RecoveredError (msg : string)
| RecoveredOther (sprint : string).

(** Available states for a promise. *)
Definition PENDING : Z := 0.
Definition FULFILLED : Z := 1.
Definition REJECTED : Z := 2.

(** The [Promise] struct.  A channel made with capacity 1 is its buffer: empty
    or one item.  The [executor] field is read once, by the goroutine that
    [New] starts, and is handed to that goroutine directly. *)
Record Promise : Type := mkPromise {
  state : Z;
  resolveChannel : option value;
  rejectChannel : option error;
  result : value;
  err : error
}.

Definition with_state (s : Z) (P : Promise) : Promise :=
  mkPromise s (resolveChannel P) (rejectChannel P) (result P) (err P).
Definition with_resolveChannel (c : option value) (P : Promise) : Promise :=
  mkPromise (state P) c (rejectChannel P) (result P) (err P).
Definition with_rejectChannel (c : option error) (P : Promise) : Promise :=
  mkPromise (state P) (resolveChannel P) c (result P) (err P).
Definition with_result (v : value) (P : Promise) : Promise :=
  mkPromise (state P) (resolveChannel P) (rejectChannel P) v (err P).
Definition with_err (e : error) (P : Promise) : Promise :=
  mkPromise (state P) (resolveChannel P) (rejectChannel P) (result P) e.

(** A handler is user code: it is modelled by what a call of it produces, a
    returned value or a panic; each call is recorded in the event log. *)
Inductive outcome (A : Type) : Type :=
| Returns (a : A)
| Panics (v : recovered).
Arguments Returns {A} a.
Arguments Panics {A} v.

Inductive event : Type :=
| OnFulfill_called (promise : loc) (data : value)
| OnRejection_called (promise : loc) (e : error)
| onFinally_called (promise : loc).

(** ** Goroutines *)

(** One constructor per access to shared memory; [k] is the rest of the
    goroutine.  [Select] is the two-case [select] over both channels of a
    promise, [Alloc] and [Go] are the [&Promise{...}] and [go] of [New]. *)
Inductive prog (A : Type) : Type :=
| Ret (a : A)
| Panic (v : recovered)
| LoadState (p : loc) (k : Z -> prog A)
| StoreState (p : loc) (s : Z) (k : prog A)
| SendResolve (p : loc) (v : value) (k : prog A)
| SendReject (p : loc) (e : error) (k : prog A)
| Select (p : loc) (kres : value -> prog A) (krej : error -> prog A)
| StoreResult (p : loc) (v : value) (k : prog A)
| StoreErr (p : loc) (e : error) (k : prog A)
| LoadResult (p : loc) (k : value -> prog A)
| LoadErr (p : loc) (k : error -> prog A)
| Invoke (ev : event) (k : prog A)
| Alloc (k : loc -> prog A)
| Go (body : prog unit) (k : prog A).
Arguments Ret {A} a.
Arguments Panic {A} v.
Arguments LoadState {A} p k.
Arguments StoreState {A} p s k.
Arguments SendResolve {A} p v k.
Arguments SendReject {A} p e k.
Arguments Select {A} p kres krej.
Arguments StoreResult {A} p v k.
Arguments StoreErr {A} p e k.
Arguments LoadResult {A} p k.
Arguments LoadErr {A} p k.
Arguments Invoke {A} ev k.
Arguments Alloc {A} k.
Arguments Go {A} body k.

Fixpoint bind {A B : Type} (m : prog A) (f : A -> prog B) : prog B :=
  match m with
  | Ret a => f a
  | Panic v => Panic v
  | LoadState p k => LoadState p (fun s => bind (k s) f)
  | StoreState p s k => StoreState p s (bind k f)
  | SendResolve p v k => SendResolve p v (bind k f)
  | SendReject p e k => SendReject p e (bind k f)
  | Select p kres krej =>
      Select p (fun v => bind (kres v) f) (fun e => bind (krej e) f)
  | StoreResult p v k => StoreResult p v (bind k f)
  | StoreErr p e k => StoreErr p e (bind k f)
  | LoadResult p k => LoadResult p (fun v => bind (k v) f)
  | LoadErr p k => LoadErr p (fun e => bind (k e) f)
  | Invoke ev k => Invoke ev (bind k f)
  | Alloc k => Alloc (fun p => bind (k p) f)
  | Go body k => Go body (bind k f)
  end.

#[global] Instance prog_ret : MRet prog := fun A a => Ret a.
#[global] Instance prog_bind : MBind prog := fun A B f m => bind m f.

(** A deferred call that recovers: it runs when the body returns
    ([recover()] is nil) and when the body panics ([recover()] is the value
    the body panicked with). *)
Fixpoint defer_recover {A : Type} (deferred : recovered -> prog A)
    (body : prog A) : prog A :=
  match body with
  | Ret _ => deferred RecoveredNil
  | Panic v => deferred v
  | LoadState p k => LoadState p (fun s => defer_recover deferred (k s))
  | StoreState p s k => StoreState p s (defer_recover deferred k)
  | SendResolve p v k => SendResolve p v (defer_recover deferred k)
  | SendReject p e k => SendReject p e (defer_recover deferred k)
  | Select p kres krej =>
      Select p (fun v => defer_recover deferred (kres v))
               (fun e => defer_recover deferred (krej e))
  | StoreResult p v k => StoreResult p v (defer_recover deferred k)
  | StoreErr p e k => StoreErr p e (defer_recover deferred k)
  | LoadResult p k => LoadResult p (fun v => defer_recover deferred (k v))
  | LoadErr p k => LoadErr p (fun e => defer_recover deferred (k e))
  | Invoke ev k => Invoke ev (defer_recover deferred k)
  | Alloc k => Alloc (fun p => defer_recover deferred (k p))
  | Go body' k => Go body' (defer_recover deferred k)
  end.

(** A call of a handler: logged, then its outcome. *)
Definition call {A : Type} (ev : event) (o : outcome A) : prog A :=
  Invoke ev (match o with Returns a => Ret a | Panics v => Panic v end).

(** ** The methods of [main.go] *)

Definition is_nil (e : recovered) : bool :=
  match e with RecoveredNil => true | _ => false end.

Definition err_is_nil (e : error) : bool :=
  match e with ErrNil => true | Err _ => false end.

(** [func (promise *Promise) reject(err error)] *)
Definition reject (promise : loc) (e : error) : prog unit :=
  LoadState promise (fun st =>
  if negb (st =? PENDING) then Ret tt else
  StoreState promise REJECTED (
  SendReject promise e (
  Ret tt))).

(** [func (promise *Promise) resetState()] *)
Definition resetState (promise : loc) : prog unit :=
  StoreState promise PENDING (Ret tt).

(** [func (promise *Promise) handlePanic()]; [e] is [recover()]. *)
Definition handlePanic (promise : loc) (e : recovered) : prog unit :=
  if negb (is_nil e) then
    match e with
    | RecoveredNil =>
        reject promise (Err "panic recovery with nil error")
    | RecoveredError msg =>
        reject promise (Err ("panic recovery with error: " +:+ msg))
    | RecoveredOther sprint =>
        reject promise (Err ("panic recovery with unknown error: " +:+ sprint))
    end
  else Ret tt.

(** [func (promise *Promise) Await() (interface{}, error)] *)
Definition Await (promise : loc) : prog (value * error) :=
  Select promise
    (fun r => StoreResult promise r (
              LoadResult promise (fun r' => LoadErr promise (fun e' =>
              Ret (r', e')))))
    (fun e => StoreErr promise e (
              LoadResult promise (fun r' => LoadErr promise (fun e' =>
              Ret (r', e'))))).

(** [func (promise *Promise) resolve(resolution interface{})].  The [return]
    after [promise.reject(err)] leaves the method: the assignment of
    [FULFILLED] below the [switch] is reached from the two sends only. *)
Definition resolve (promise : loc) (resolution : value) : prog unit :=
  LoadState promise (fun st =>
  if negb (st =? PENDING) then Ret tt else
  match resolution with
  | VPromise inner =>
      '(flattenedResult, e) ← Await inner;
      if negb (err_is_nil e) then reject promise e
      else
        SendResolve promise flattenedResult (
        StoreState promise FULFILLED (Ret tt))
  | _ =>
      SendResolve promise resolution (
      StoreState promise FULFILLED (Ret tt))
  end).

(** The type of an executor: [func(resolve func(interface{}), reject func(error))]. *)
Definition executor : Type :=
  (value -> prog unit) -> (error -> prog unit) -> prog unit.

(** The goroutine that [New] starts:
    [go func() { defer promise.handlePanic(); promise.executor(promise.resolve, promise.reject) }()]. *)
Definition goroutine (promise : loc) (ex : executor) : prog unit :=
  defer_recover (handlePanic promise) (ex (resolve promise) (reject promise)).

(** [func New(executor ...) *Promise] *)
Definition New (ex : executor) : prog loc :=
  Alloc (fun promise =>
  Go (goroutine promise ex) (
  Ret promise)).

(** [func Reject(err error) *Promise] *)
Definition Reject (e : error) : prog loc :=
  New (fun resolve reject => reject e).

(** [func Resolve(value interface{}) *Promise] *)
Definition Resolve (v : value) : prog loc :=
  New (fun resolve reject => resolve v).

(** The executor [Then] hands to [New]; [promise] is the receiver. *)
Definition Then_executor (promise : loc) (OnFulfill : value -> outcome value)
    (OnRejection : error -> outcome error) : executor :=
  fun resolve reject =>
    Select promise
      (fun r =>
         resetState promise ;;
         v ← call (OnFulfill_called promise r) (OnFulfill r);
         resolve v)
      (fun e =>
         e' ← call (OnRejection_called promise e) (OnRejection e);
         reject e').

(** [func (promise *Promise) Then(OnFulfill, OnRejection) *Promise] *)
Definition Then (promise : loc) (OnFulfill : value -> outcome value)
    (OnRejection : error -> outcome error) : prog loc :=
  New (Then_executor promise OnFulfill OnRejection).

(** The executor [Catch] hands to [New]. *)
Definition Catch_executor (promise : loc)
    (OnRejection : error -> outcome error) : executor :=
  fun resolve reject =>
    Select promise
      (fun r => resolve r)
      (fun e =>
         e' ← call (OnRejection_called promise e) (OnRejection e);
         reject e').

(** [func (promise *Promise) Catch(OnRejection) *Promise] *)
Definition Catch (promise : loc) (OnRejection : error -> outcome error)
  : prog loc :=
  New (Catch_executor promise OnRejection).

(** The executor [Finally] hands to [New]; the value [onFinally] returns is
    dropped. *)
Definition Finally_executor (promise : loc) (onFinally : outcome value)
  : executor :=
  fun resolve reject =>
    Select promise (fun r => resolve r) (fun e => reject e) ;;
    _ ← call (onFinally_called promise) onFinally;
    Ret tt.

(** [func (promise *Promise) Finally(onFinally func() interface{}) *Promise] *)
Definition Finally (promise : loc) (onFinally : outcome value) : prog loc :=
  New (Finally_executor promise onFinally).

(** ** Running goroutines *)

(** Shared memory: the allocated promises, the log of handler calls, and the
    goroutines started so far. *)
Record store : Type := mkStore {
  heap : list Promise;
  events : list event;
  pool : list (prog unit)
}.

Definition with_heap (h : list Promise) (σ : store) : store :=
  mkStore h (events σ) (pool σ).

(** [modify p f σ]: the promise at [p] replaced by its image under [f]. *)
Definition modify (p : loc) (f : Promise -> Promise) (σ : store) : store :=
  with_heap (alter f p (heap σ)) σ.

(** The promise [&Promise{state: PENDING, ..., result: nil, err: nil}] with
    its two fresh channels. *)
Definition fresh : Promise := mkPromise PENDING None None VNil ErrNil.

(** One access to shared memory by a goroutine, taken as one atomic step: the
    ways it can happen.  No way: the goroutine is finished, or blocked (a
    send on a full channel, a [select] with both channels empty).  Two ways:
    a [select] with both channels ready, where Go picks either.  Every
    [*Promise] the program holds comes from [New] and is allocated; a [loc]
    outside the heap stands for no pointer, and nothing steps on it. *)
Definition step1 {A : Type} (m : prog A) (σ : store) : list (prog A * store) :=
  match m with
  | Ret _ | Panic _ => []
  | LoadState p k =>
      match heap σ !! p with
      | Some P => [(k (state P), σ)]
      | None => []
      end
  | StoreState p s k =>
      match heap σ !! p with
      | Some _ => [(k, modify p (with_state s) σ)]
      | None => []
      end
  | SendResolve p v k =>
      match heap σ !! p with
      | Some P =>
          match resolveChannel P with
          | None => [(k, modify p (with_resolveChannel (Some v)) σ)]
          | Some _ => []
          end
      | None => []
      end
  | SendReject p e k =>
      match heap σ !! p with
      | Some P =>
          match rejectChannel P with
          | None => [(k, modify p (with_rejectChannel (Some e)) σ)]
          | Some _ => []
          end
      | None => []
      end
  | Select p kres krej =>
      match heap σ !! p with
      | Some P =>
          match resolveChannel P with
          | Some v => [(kres v, modify p (with_resolveChannel None) σ)]
          | None => []
          end ++
          match rejectChannel P with
          | Some e => [(krej e, modify p (with_rejectChannel None) σ)]
          | None => []
          end
      | None => []
      end
  | StoreResult p v k =>
      match heap σ !! p with
      | Some _ => [(k, modify p (with_result v) σ)]
      | None => []
      end
  | StoreErr p e k =>
      match heap σ !! p with
      | Some _ => [(k, modify p (with_err e) σ)]
      | None => []
      end
  | LoadResult p k =>
      match heap σ !! p with
      | Some P => [(k (result P), σ)]
      | None => []
      end
  | LoadErr p k =>
      match heap σ !! p with
      | Some P => [(k (err P), σ)]
      | None => []
      end
  | Invoke ev k => [(k, mkStore (heap σ) (events σ ++ [ev]) (pool σ))]
  | Alloc k => [(k (length (heap σ)), with_heap (heap σ ++ [fresh]) σ)]
  | Go body k => [(k, mkStore (heap σ) (events σ) (pool σ ++ [body]))]
  end.

(** A configuration: the calling goroutine, which builds the promises and
    awaits, and the shared memory with the goroutines [New] started. *)
Record config (A : Type) : Type := mkConfig {
  caller : prog A;
  shared : store
}.
Arguments mkConfig {A} caller shared.
Arguments caller {A} c.
Arguments shared {A} c.

Inductive tid : Type :=
| Caller
| Goroutine (i : nat).

(** The steps goroutine [t] can take in [c]. *)
Definition steps_of {A : Type} (t : tid) (c : config A) : list (config A) :=
  match t with
  | Caller =>
      (fun '(m, σ) => mkConfig m σ) <$> step1 (caller c) (shared c)
  | Goroutine i =>
      match pool (shared c) !! i with
      | Some g =>
          (fun '(g', σ) =>
             mkConfig (caller c)
               (mkStore (heap σ) (events σ) (<[i := g']> (pool σ))))
          <$> step1 g (shared c)
      | None => []
      end
  end.

Definition threads {A : Type} (c : config A) : list tid :=
  Caller :: (Goroutine <$> seq 0 (length (pool (shared c)))).

(** Every configuration one step away, whichever goroutine moves. *)
Definition succs {A : Type} (c : config A) : list (config A) :=
  threads c ≫= (fun t => steps_of t c).

Definition step {A : Type} (c c' : config A) : Prop := c' ∈ succs c.

(** A schedule names, step by step, the goroutine that moves and which of
    its alternatives it takes (0 unless a [select] has both channels ready). *)
Fixpoint run {A : Type} (schedule : list (tid * nat)) (c : config A)
  : option (config A) :=
  match schedule with
  | [] => Some c
  | (t, j) :: rest =>
      match steps_of t c !! j with
      | Some c' => run rest c'
      | None => None
      end
  end.

Definition start {A : Type} (m : prog A) : config A :=
  mkConfig m (mkStore [] [] []).

(** Nobody can move. *)
Definition quiescent {A : Type} (c : config A) : Prop := succs c = [].

(** The field [state] of the promise at [p], and its channels. *)
Definition state_of {A : Type} (c : config A) (p : loc) : option Z :=
  state <$> heap (shared c) !! p.
Definition resolveChannel_of {A : Type} (c : config A) (p : loc)
  : option (option value) :=
  resolveChannel <$> heap (shared c) !! p.
Definition rejectChannel_of {A : Type} (c : config A) (p : loc)
  : option (option error) :=
  rejectChannel <$> heap (shared c) !! p.

(** [explored n P c]: [P] holds of [c] and of everything reachable from it,
    and no run from [c] is longer than [n] steps. *)
Fixpoint explored {A : Type} (n : nat) (P : config A -> Prop) (c : config A)
  : Prop :=
  P c ∧
  match n with
  | O => succs c = []
  | S n' => foldr (fun c' rest => explored n' P c' ∧ rest) True (succs c)
  end.


(** [quiet c] computes [quiescent c]. *)
Definition quiet {A : Type} (c : config A) : bool :=
  match succs c with [] => true | _ :: _ => false end.

(** A schedule in which no [select] has a choice to make. *)
Definition sched (ts : list tid) : list (tid * nat) :=
  (fun t => (t, 0%nat)) <$> ts.

(** A goroutine on its own: one step of it, and where it can be after at
    most [n] steps that nothing else interleaves with: finished, blocked, or
    out of steps. *)
Definition thread_step {A : Type} (x y : prog A * store) : Prop :=
  y ∈ step1 x.1 x.2.

Fixpoint solo {A : Type} (n : nat) (m : prog A) (σ : store)
  : list (prog A * store) :=
  match n with
  | O => [(m, σ)]
  | S n' =>
      match step1 m σ with
      | [] => [(m, σ)]
      | next => next ≫= (fun '(m', σ') => solo n' m' σ')
      end
  end.

(** ** What a program does under every schedule *)

(** Whenever the calling goroutine has returned, it has returned [r]. *)
Definition returns_only {A : Type} (c0 : config A) (r : A) : Prop :=
  ∀ c r', rtc step c0 c → caller c = Ret r' → r' = r.

(** No run from [c0] is infinite, and once nobody can move [Q] holds. *)
Definition ends_with {A : Type} (c0 : config A) (Q : config A → Prop) : Prop :=
  (∃ n, ∀ k c, nsteps step k c0 c → (k ≤ n)%nat) ∧
  (∀ c, rtc step c0 c → quiescent c → Q c).

(** Under every schedule the caller returns [r], and nothing else. *)
Definition yields {A : Type} (c0 : config A) (r : A) : Prop :=
  returns_only c0 r ∧ ends_with c0 (fun c => caller c = Ret r).

(** The property explored for [yields] and [ends_with]: what the caller may
    have returned ([None]: it never returns), and [Q] once nobody can move. *)
Definition verdict {A : Type} (r : option A) (Q : config A → Prop)
    (c : config A) : Prop :=
  match caller c, r with
  | Ret r', Some r => r' = r
  | Ret _, None => False
  | _, Some _ => quiet c = false
  | _, None => True
  end ∧
  if quiet c then Q c else True.

(** The promise at [p] has state [s] and these channel buffers. *)
Definition settled {A : Type} (p : loc) (s : Z) (cv : option value)
    (ce : option error) (c : config A) : Prop :=
  state_of c p = Some s ∧
  resolveChannel_of c p = Some cv ∧
  rejectChannel_of c p = Some ce.

(** Some path through [m] assigns the field [state] of the promise at [p]. *)
Fixpoint writes_state (p : loc) (A : Type) (m : prog A) {struct m} : Prop :=
  match m with
  | Ret _ | Panic _ => False
  | LoadState _ k => ∃ s, writes_state p A (k s)
  | StoreState q _ k => q = p ∨ writes_state p A k
  | SendResolve _ _ k => writes_state p A k
  | SendReject _ _ k => writes_state p A k
  | Select _ kres krej =>
      (∃ v, writes_state p A (kres v)) ∨ (∃ e, writes_state p A (krej e))
  | StoreResult _ _ k => writes_state p A k
  | StoreErr _ _ k => writes_state p A k
  | LoadResult _ k => ∃ v, writes_state p A (k v)
  | LoadErr _ k => ∃ e, writes_state p A (k e)
  | Invoke _ k => writes_state p A k
  | Alloc k => ∃ q, writes_state p A (k q)
  | Go body k => writes_state p unit body ∨ writes_state p A k
  end.
Arguments writes_state p {A} m.

(** However far the goroutine [m] runs, from whatever store, the field
    [state] of the promise at [p] stays what it was. *)
Definition keeps_state {A : Type} (p : loc) (m : prog A) : Prop :=
  ∀ σ m' σ', is_Some (heap σ !! p) →
    rtc thread_step (m, σ) (m', σ') →
    state <$> heap σ' !! p = state <$> heap σ !! p.

(** ** The programs of the claims *)

Definition is_promise (v : value) : bool :=
  match v with VPromise _ => true | _ => false end.

(** [Resolve(v).Await()] *)
Definition Resolve_Await (v : value) : prog (value * error) :=
  p ← Resolve v; Await p.

(** [Resolve(Resolve(v)).Await()]: the inner promise is the first one
    allocated (0), the outer one the second (1). *)
Definition Resolve_Resolve_Await (v : value) : prog (value * error) :=
  inner ← Resolve v; outer ← Resolve (VPromise inner); Await outer.

(** [Resolve(Reject(errX))], and [Resolve(Reject(errX)).Await()]. *)
Definition Resolve_Reject (errX : error) : prog loc :=
  inner ← Reject errX; Resolve (VPromise inner).
Definition Resolve_Reject_Await (errX : error) : prog (value * error) :=
  outer ← Resolve_Reject errX; Await outer.

(** [New(func(resolve, reject) { panic(v) }).Await()] *)
Definition Panic_Await (v : recovered) : prog (value * error) :=
  p ← New (fun resolve reject => Panic v); Await p.

(** [Reject(errX).Then(f, g).Await()] *)
Definition Reject_Then_Await (errX : error) (f : value -> outcome value)
    (g : error -> outcome error) : prog (value * error) :=
  p ← Reject errX; q ← Then p f g; Await q.

(** [Reject(e).Catch(h).Await()] and [Reject(e).Catch(h).Then(f, g).Await()] *)
Definition Reject_Catch (e : error) (h : error -> outcome error) : prog loc :=
  p ← Reject e; Catch p h.
Definition Reject_Catch_Await (e : error) (h : error -> outcome error)
  : prog (value * error) :=
  p ← Reject e; q ← Catch p h; Await q.
Definition Reject_Catch_Then_Await (e : error) (h : error -> outcome error)
    (f : value -> outcome value) (g : error -> outcome error)
  : prog (value * error) :=
  p ← Reject e; q ← Catch p h; r ← Then q f g; Await r.

(** [Reject(e).Await()] *)
Definition Reject_Await (e : error) : prog (value * error) :=
  p ← Reject e; Await p.

(** [Resolve(v).Then(f, g).Await()] *)
Definition Resolve_Then_Await (v : value) (f : value -> outcome value)
    (g : error -> outcome error) : prog (value * error) :=
  p ← Resolve v; q ← Then p f g; Await q.

(** [Resolve(v).Catch(h).Await()] *)
Definition Resolve_Catch_Await (v : value) (h : error -> outcome error)
  : prog (value * error) :=
  p ← Resolve v; q ← Catch p h; Await q.

(** Executors that settle more than once, or settle and then go on. *)
Definition resolve_then (v : value) (rest : prog unit) : executor :=
  fun resolve reject => resolve v ;; rest.
Definition reject_then (e : error) (rest : prog unit) : executor :=
  fun resolve reject => reject e ;; rest.
Definition resolve_reject_resolve (v : value) (e : error) (v' : value)
  : executor :=
  fun resolve reject => resolve v ;; reject e ;; resolve v'.
Definition reject_resolve_reject (e : error) (v : value) (e' : error)
  : executor :=
  fun resolve reject => reject e ;; resolve v ;; reject e'.

(** [New(ex).Await()] *)
Definition New_Await (ex : executor) : prog (value * error) :=
  p ← New ex; Await p.

(** [p := New(ex); q := p.Then(f, g)], nobody awaiting. *)
Definition New_Then (ex : executor) (f : value -> outcome value)
    (g : error -> outcome error) : prog (loc * loc) :=
  p ← New ex; q ← Then p f g; Ret (p, q).

(** A handler that swallows the error: [func(err error) error { return nil }]. *)
Definition swallow : error -> outcome error := fun _ => Returns ErrNil.

(** A store with the promises [h], an empty log and no goroutine. *)
Definition only (h : list Promise) : store := mkStore h [] [].

(** ** Every schedule, each configuration once *)

(** [safe P c]: [P] holds of [c] and of everything reachable from [c], and no
    run from [c] is infinite.  Unlike [explored] it counts no steps, so a
    configuration that several interleavings reach is dealt with once. *)
Inductive safe {A : Type} (P : config A → Prop) (c : config A) : Prop :=
| safe_intro : P c → (∀ c', c' ∈ succs c → safe P c') → safe P c.

(** [safe P c], filed under the heap of [c]: the walk of the graph of
    configurations looks a configuration up among the ones it has dealt with,
    and the heap tells most of them apart. *)
Definition memo {A : Type} (h : list Promise) (P : config A → Prop)
    (c : config A) : Prop :=
  safe P c.

(** Some path through [m] ends in a panic that [m] does not recover; what a
    goroutine started by [m] does is that goroutine's. *)
Fixpoint panics (A : Type) (m : prog A) {struct m} : Prop :=
  match m with
  | Ret _ => False
  | Panic _ => True
  | LoadState _ k => ∃ s, panics A (k s)
  | StoreState _ _ k => panics A k
  | SendResolve _ _ k => panics A k
  | SendReject _ _ k => panics A k
  | Select _ kres krej =>
      (∃ v, panics A (kres v)) ∨ (∃ e, panics A (krej e))
  | StoreResult _ _ k => panics A k
  | StoreErr _ _ k => panics A k
  | LoadResult _ k => ∃ v, panics A (k v)
  | LoadErr _ k => ∃ e, panics A (k e)
  | Invoke _ k => panics A k
  | Alloc k => ∃ q, panics A (k q)
  | Go _ k => panics A k
  end.
Arguments panics {A} m.

(** The calling goroutine never returns. *)
Definition blocks {A : Type} (c0 : config A) : Prop :=
  ∀ c r, rtc step c0 c → caller c ≠ Ret r.

(** What is explored when the caller returns under some schedules and stays
    blocked under others: if it has returned, it has returned [r]; once
    nobody can move, [Q] holds. *)
Definition may_yield {A : Type} (r : A) (Q : config A → Prop)
    (c : config A) : Prop :=
  match caller c with
  | Ret r' => r' = r
  | _ => True
  end ∧
  if quiet c then Q c else True.

(** A program is over when its calling goroutine, [func main], returns: the
    process exits then, whatever the other goroutines are doing.  The steps
    of the program are the steps taken while the caller has not returned. *)
Definition exited {A : Type} (c : config A) : bool :=
  match caller c with
  | Ret _ => true
  | _ => false
  end.

Definition program_step {A : Type} (c c' : config A) : Prop :=
  exited c = false ∧ step c c'.

(** What is explored for a program that exits when the caller returns: [Q]
    of what the caller returned and of the configuration it returned in;
    before that, somebody can move. *)
Definition on_return {A : Type} (Q : A → config A → Prop) (c : config A)
  : Prop :=
  match caller c with
  | Ret r => Q r c
  | _ => quiet c = false
  end.

(** The fields [result] and [err] of the promise at [p]. *)
Definition result_of {A : Type} (c : config A) (p : loc) : option value :=
  result <$> heap (shared c) !! p.
Definition err_of {A : Type} (c : config A) (p : loc) : option error :=
  err <$> heap (shared c) !! p.

(** ** Further programs *)

(** [Resolve(v).Finally(onFinally).Await()] and
    [Reject(e).Finally(onFinally).Await()] *)
Definition Resolve_Finally_Await (v : value) (onFinally : outcome value)
  : prog (value * error) :=
  p ← Resolve v; q ← Finally p onFinally; Await q.
Definition Reject_Finally_Await (e : error) (onFinally : outcome value)
  : prog (value * error) :=
  p ← Reject e; q ← Finally p onFinally; Await q.

(** [p := Resolve(v); a, b := p.Await(); c, d := p.Await()], and the same on
    [Reject(e)]. *)
Definition Resolve_Await_Await (v : value)
  : prog ((value * error) * (value * error)) :=
  p ← Resolve v; first ← Await p; second ← Await p; Ret (first, second).
Definition Reject_Await_Await (e : error)
  : prog ((value * error) * (value * error)) :=
  p ← Reject e; first ← Await p; second ← Await p; Ret (first, second).

(** Two consumers of one promise, a [Then] and the caller:
    [p := Resolve(v); q := p.Then(f, g); p.Await()]. *)
Definition Resolve_Then_Await_parent (v : value)
    (f : value -> outcome value) (g : error -> outcome error)
  : prog (value * error) :=
  p ← Resolve v; q ← Then p f g; Await p.

(** A fulfill handler that returns a promise:
    [inner := Resolve(w)] or [inner := Reject(e)], then
    [Resolve(v).Then(func(interface{}) interface{} { return inner }, g).Await()]. *)
Definition Then_returning (inner : loc) (v : value)
    (g : error -> outcome error) : prog (value * error) :=
  p ← Resolve v; q ← Then p (fun _ => Returns (VPromise inner)) g; Await q.
Definition Then_Resolve_Await (w v : value) (g : error -> outcome error)
  : prog (value * error) :=
  inner ← Resolve w; Then_returning inner v g.
Definition Then_Reject_Await (e : error) (v : value)
    (g : error -> outcome error) : prog (value * error) :=
  inner ← Reject e; Then_returning inner v g.

(** An executor that settles several times: the calls of [resolve] and of
    [reject] it makes, in order.
    [func(resolve, reject) { resolve(v); reject(e); ... }] *)
Definition settle_with (resolve : value -> prog unit)
    (reject : error -> prog unit) (call : value + error) : prog unit :=
  match call with
  | inl v => resolve v
  | inr e => reject e
  end.
Definition settles (calls : list (value + error)) : executor :=
  fun resolve reject =>
    foldr (fun call rest => settle_with resolve reject call ;; rest)
          (Ret tt) calls.

(** A call that gives [resolve] no promise. *)
Definition plain_call (call : value + error) : Prop :=
  match call with
  | inl v => is_promise v = false
  | inr _ => True
  end.

(** [New(ex).Then(f, g).Await()] *)
Definition New_Then_Await (ex : executor) (f : value -> outcome value)
    (g : error -> outcome error) : prog (value * error) :=
  p ← New ex; q ← Then p f g; Await q.

(** An executor that returns without settling: [func(resolve, reject) {}]. *)
Definition idle : executor := fun resolve reject => Ret tt.

(** [New(ex).Then(f, g).Catch(h).Finally(onFinally).Await()] *)
Definition New_chain_Await (ex : executor) (f : value -> outcome value)
    (g h : error -> outcome error) (onFinally : outcome value)
  : prog (value * error) :=
  p0 ← New ex; p1 ← Then p0 f g; p2 ← Catch p1 h; p3 ← Finally p2 onFinally;
  Await p3.

(** ** The demonstration in [main] *)

(** Go's [int], taken as 64 bits: the sum of [data.(int) + 1] wraps. *)
Definition wrap_int (n : Z) : Z := (n + 2 ^ 63) `mod` 2 ^ 64 - 2 ^ 63.

(** What the failed type assertion [data.(int)] panics with: a
    [*runtime.TypeAssertionError], which is an [error]. *)
Definition not_int (dynamic_type : string) : recovered :=
  RecoveredError
    ("interface conversion: interface {} is " +:+ dynamic_type +:+ ", not int").

(** The handlers of [main], in the order of the chain.  What they print is
    not part of the state of a promise and is left out.
    [func(data interface{}) interface{} { ...; return data.(int) + 1 }] *)
Definition main_OnFulfill_1 (data : value) : outcome value :=
  match data with
  | VInt n => Returns (VInt (wrap_int (n + 1)))
  | VNil => Panics (not_int "nil")
  | VStr _ => Panics (not_int "string")
  | VPromise _ => Panics (not_int "*main.Promise")
  end.

(** [func(err error) error { return err }], given to both [Then]s. *)
Definition main_OnRejection (e : error) : outcome error := Returns e.

(** [func(data interface{}) interface{} { ...; return nil }] *)
Definition main_OnFulfill_2 (data : value) : outcome value := Returns VNil.

(** [func(error error) error { ...; fmt.Println(error.Error()); return nil }]:
    [error.Error()] on a nil error is a nil dereference, a run-time panic
    with a [runtime.Error]. *)
Definition main_Catch (e : error) : outcome error :=
  match e with
  | ErrNil =>
      Panics (RecoveredError
                "runtime error: invalid memory address or nil pointer dereference")
  | Err _ => Returns ErrNil
  end.

(** [func() interface{} { ...; return nil }] *)
Definition main_onFinally : outcome value := Returns VNil.

(** [errors.New(fmt.Sprintf("%d is not equal to 3", testNum))] *)
Definition main_error (testNum : Z) : error :=
  Err (pretty testNum +:+ " is not equal to 3").

(** The executor of [main]: two [if]s, each ending in [return]. *)
Definition main_executor (testNum : Z) : executor :=
  fun resolve reject =>
    if testNum =? 3 then resolve (VInt testNum)
    else if negb (testNum =? 3) then reject (main_error testNum)
    else Ret tt.

(** [func main()], [testNum] being the global the flag was parsed into.
    [main] returns when [p.Await()] has, and the program exits with it: its
    runs are those of [program_step]. *)
Definition main (testNum : Z) : prog (value * error) :=
  p0 ← New (main_executor testNum);
  p1 ← Then p0 main_OnFulfill_1 main_OnRejection;
  p2 ← Then p1 main_OnFulfill_2 main_OnRejection;
  p3 ← Catch p2 main_Catch;
  p ← Finally p3 main_onFinally;
  Await p.

(** ** Exploration is sound *)

Section Exploration.
Context {A : Type}.
Implicit Types (c : config A) (P Q : config A → Prop).

Lemma quiet_spec c : quiet c = true ↔ quiescent c.
Proof.
  unfold quiet, quiescent. destruct (succs c); split; congruence.
Qed.

Lemma foldr_and_Forall Q (l : list (config A)) :
  foldr (fun c' rest => Q c' ∧ rest) True l ↔ Forall Q l.
Proof.
  induction l as [|c l IH]; simpl.
  - split; auto.
  - rewrite IH. split.
    + intros [? ?]. by constructor.
    + by inversion 1.
Qed.

Lemma explored_here n P c : explored n P c → P c.
Proof. destruct n; simpl; tauto. Qed.

Lemma explored_step n P c c' :
  explored n P c → step c c' → ∃ n', n = S n' ∧ explored n' P c'.
Proof.
  unfold step. destruct n as [|n']; simpl; intros [_ H] Hin.
  - rewrite H in Hin. by apply elem_of_nil in Hin.
  - exists n'. split; [done|].
    apply foldr_and_Forall in H. rewrite Forall_forall in H. by apply H.
Qed.

Lemma explored_reach n P c c' : explored n P c → rtc step c c' → P c'.
Proof.
  intros He Hr. revert n He.
  induction Hr as [c|c c1 c' Hs _ IH]; intros n He.
  - by eapply explored_here.
  - destruct (explored_step _ _ _ _ He Hs) as (n' & _ & He'). by eapply IH.
Qed.

Lemma explored_bound n P c k c' :
  explored n P c → nsteps step k c c' → (k ≤ n)%nat.
Proof.
  intros He Hr. revert n He.
  induction Hr as [c|k c c1 c' Hs _ IH]; intros n He.
  - lia.
  - destruct (explored_step _ _ _ _ He Hs) as (n' & -> & He').
    apply IH in He'. lia.
Qed.

Lemma explored_ends_with n c0 r Q :
  explored n (verdict r Q) c0 → ends_with c0 Q.
Proof.
  intros He. split.
  - exists n. intros k c. by apply (explored_bound _ _ _ _ _ He).
  - intros c Hr Hq. apply (explored_reach _ _ _ _ He) in Hr as [_ H].
    apply quiet_spec in Hq. by rewrite Hq in H.
Qed.

Lemma explored_yields n c0 r Q :
  explored n (verdict (Some r) Q) c0 → yields c0 r.
Proof.
  intros He. split.
  - intros c r' Hr Hc. apply (explored_reach _ _ _ _ He) in Hr as [H _].
    by rewrite Hc in H.
  - split.
    + exists n. intros k c. by apply (explored_bound _ _ _ _ _ He).
    + intros c Hr Hq. apply (explored_reach _ _ _ _ He) in Hr as [H _].
      apply quiet_spec in Hq. destruct (caller c); congruence.
Qed.

Lemma explored_both n c0 r Q :
  explored n (verdict (Some r) Q) c0 → yields c0 r ∧ ends_with c0 Q.
Proof.
  intros He. split; [by eapply explored_yields | by eapply explored_ends_with].
Qed.

(** One node of the tree of runs, its successors given. *)
Lemma explored_node n P c (next : list (config A)) :
  succs c = next → P c → Forall (explored n P) next → explored (S n) P c.
Proof.
  intros <- HP Hnext. simpl. split; [done|]. by apply foldr_and_Forall.
Qed.

(** A schedule that runs is a run. *)
Lemma run_reachable schedule c c' : run schedule c = Some c' → rtc step c c'.
Proof.
  revert c. induction schedule as [|[t j] rest IH]; simpl; intros c Hrun.
  - injection Hrun as ->. constructor.
  - destruct (steps_of t c !! j) as [c1|] eqn:Hj; [|done].
    apply rtc_l with c1; [|by apply IH].
    unfold step, succs. apply list_elem_of_bind. exists t. split.
    + by eapply list_elem_of_lookup_2.
    + unfold threads. destruct t as [|i]; [left|right].
      apply list_elem_of_fmap. exists i. split; [done|].
      apply elem_of_seq. simpl in Hj.
      destruct (pool (shared c) !! i) eqn:Hi; [|done].
      apply lookup_lt_Some in Hi. lia.
Qed.
End Exploration.


(** ** Who assigns the field [state] *)

Lemma writes_state_bind (p : loc) {A B : Type} (m : prog A) (f : A → prog B) :
  writes_state p (bind m f) → writes_state p m ∨ ∃ a, writes_state p (f a).
Proof.
  induction m; simpl; try naive_solver.
Qed.
Lemma writes_state_defer (p : loc) {A : Type} (d : recovered → prog A) (m : prog A) :
  writes_state p (defer_recover d m) → writes_state p m ∨ ∃ v, writes_state p (d v).
Proof.
  induction m; simpl; try naive_solver.
Qed.
Lemma reject_writes p q e : writes_state p (reject q e) → q = p.
Proof.
  unfold reject. simpl. intros [s Hs]. destruct (negb (s =? PENDING)); simpl in Hs; naive_solver.
Qed.
Lemma Await_writes p q : ¬ writes_state p (Await q).
Proof. unfold Await. simpl. naive_solver. Qed.
Lemma resolve_writes p q v : writes_state p (resolve q v) → q = p.
Proof.
  unfold resolve. simpl. intros [s Hs]. destruct (negb (s =? PENDING)); simpl in Hs; [done|].
  destruct v; simpl in Hs; try naive_solver.
  destruct Hs as [(_ & r & e & Hs)|(_ & r & e & Hs)];
    (destruct (negb (err_is_nil e));
     [by apply reject_writes in Hs | simpl in Hs; naive_solver]).
Qed.
Lemma handlePanic_writes p q x : writes_state p (handlePanic q x) → q = p.
Proof.
  destruct x; cbn -[reject]; [tauto|apply reject_writes..].
Qed.
Lemma call_writes p {A} ev (o : outcome A) : ¬ writes_state p (call ev o).
Proof. unfold call. destruct o; simpl; tauto. Qed.

Lemma Catch_goroutine_writes parent self g :
  writes_state parent (goroutine self (Catch_executor parent g)) → self = parent.
Proof.
  unfold goroutine. intros [Hw|[x Hw]]%writes_state_defer.
  - unfold Catch_executor in Hw. simpl in Hw.
    destruct Hw as [[r Hw]|[e Hw]].
    + by apply resolve_writes in Hw.
    + destruct (g e); simpl in Hw; [|done]. by apply reject_writes in Hw.
  - by apply handlePanic_writes in Hw.
Qed.
Lemma Finally_goroutine_writes parent self fin :
  writes_state parent (goroutine self (Finally_executor parent fin)) → self = parent.
Proof.
  unfold goroutine. intros [Hw|[x Hw]]%writes_state_defer.
  - unfold Finally_executor in Hw.
    apply writes_state_bind in Hw as [Hw|[[] Hw]].
    + simpl in Hw. destruct Hw as [[r Hw]|[e Hw]].
      * by apply resolve_writes in Hw.
      * by apply reject_writes in Hw.
    + simpl in Hw. by destruct fin.
  - by apply handlePanic_writes in Hw.
Qed.

Lemma lookup_modify_state (p q : loc) (f : Promise → Promise) (σ : store) :
  (∀ P, state (f P) = state P) →
  state <$> heap (modify q f σ) !! p = state <$> heap σ !! p.
Proof.
  intros Hf. unfold modify. simpl. rewrite list_lookup_alter.
  case_decide as Hqp; [|done]. subst q.
  rewrite <-option_fmap_compose. apply option_fmap_ext. intros P. apply Hf.
Qed.

Lemma lookup_modify_is_Some (p q : loc) (f : Promise → Promise) (σ : store) :
  is_Some (heap (modify q f σ) !! p) ↔ is_Some (heap σ !! p).
Proof.
  unfold modify. simpl. rewrite list_lookup_alter.
  case_decide as Hqp; [|done]. subst q. by rewrite fmap_is_Some.
Qed.

Lemma step1_keeps_state (p : loc) {A : Type} (m m' : prog A) (σ σ' : store) :
  (m', σ') ∈ step1 m σ → ¬ writes_state p m → is_Some (heap σ !! p) →
  ¬ writes_state p m' ∧ is_Some (heap σ' !! p) ∧
  state <$> heap σ' !! p = state <$> heap σ !! p.
Proof.
  intros Hstep Hw Hp.
  destruct m; simpl in Hstep, Hw;
    repeat match type of Hstep with
    | _ ∈ match ?x with _ => _ end => destruct x eqn:?
    | _ ∈ _ ++ _ => apply elem_of_app in Hstep as [Hstep|Hstep]
    end;
    try (by apply elem_of_nil in Hstep);
    apply list_elem_of_singleton in Hstep; injection Hstep as -> ->;
    rewrite ?lookup_modify_is_Some.
  all: try (split; [naive_solver|split; [done|]]).
  all: try (apply lookup_modify_state; done).
  all: try done.
  - unfold modify; simpl. rewrite list_lookup_alter_ne; [done|naive_solver].
  - simpl. destruct Hp as [P HP].
    rewrite (lookup_app_l_Some _ _ _ _ HP), HP. naive_solver.
Qed.

Lemma no_write_keeps_state (p : loc) {A : Type} (m : prog A) :
  ¬ writes_state p m → keeps_state p m.
Proof.
  intros Hw σ m' σ' Hp Hrun.
  remember (m, σ) as x eqn:Hx. remember (m', σ') as y eqn:Hy.
  revert m σ Hw Hp Hx.
  induction Hrun as [x|x [m1 σ1] y Hstep _ IH]; intros m σ Hw Hp ->.
  - by injection Hy as -> ->.
  - unfold thread_step in Hstep. simpl in Hstep.
    destruct (step1_keeps_state p _ _ _ _ Hstep Hw Hp) as (Hw1 & Hp1 & <-).
    by eapply IH.
Qed.

(** ** A goroutine on its own, step by step *)

Lemma lookup_modify_eq (p : loc) (f : Promise → Promise) (σ : store)
    (P : Promise) :
  heap σ !! p = Some P → heap (modify p f σ) !! p = Some (f P).
Proof.
  intros HP. unfold modify. simpl. by rewrite list_lookup_alter_eq, HP.
Qed.

Lemma lookup_modify_ne (p q : loc) (f : Promise → Promise) (σ : store) :
  q ≠ p → heap (modify q f σ) !! p = heap σ !! p.
Proof. intros Hne. unfold modify. simpl. by rewrite list_lookup_alter_ne. Qed.

Lemma solo_step {A : Type} (n : nat) (m m' : prog A) (σ σ' : store) :
  step1 m σ = [(m', σ')] → solo (S n) m σ = solo n m' σ'.
Proof. intros H. simpl. rewrite H. simpl. apply app_nil_r. Qed.

Lemma solo_S {A : Type} (n : nat) (m : prog A) (σ : store) :
  solo (S n) m σ =
  match step1 m σ with
  | [] => [(m, σ)]
  | _ :: _ => step1 m σ ≫= (fun '(m', σ') => solo n m' σ')
  end.
Proof. simpl. by destruct (step1 m σ). Qed.

Lemma solo_thread_steps {A : Type} (n : nat) (m m' : prog A) (σ σ' : store) :
  (m', σ') ∈ solo n m σ → rtc thread_step (m, σ) (m', σ').
Proof.
  revert m σ. induction n as [|n IH]; intros m σ.
  - simpl. intros ->%list_elem_of_singleton. constructor.
  - rewrite solo_S. destruct (step1 m σ) as [|x next] eqn:Hstep.
    + intros ->%list_elem_of_singleton. constructor.
    + rewrite <-Hstep. intros [[m1 σ1] [Hin H1]]%list_elem_of_bind.
      apply rtc_l with (m1, σ1); [done|by apply IH].
Qed.

(** The promise a step reads, looked up through the updates made so far. *)
Ltac lookup_promise :=
  first [ eassumption
        | apply lookup_modify_eq; lookup_promise
        | rewrite lookup_modify_ne by done; lookup_promise ].

Ltac simpl_promise :=
  cbn [with_state with_resolveChannel with_rejectChannel with_result with_err
       state resolveChannel rejectChannel result err app
       negb err_is_nil is_nil bind mbind prog_bind];
  repeat match goal with
         | H : state _ = _ |- _ => rewrite H
         | H : resolveChannel _ = _ |- _ => rewrite H
         | H : rejectChannel _ = _ |- _ => rewrite H
         end;
  cbn [negb Z.eqb PENDING FULFILLED REJECTED app].

(** One step of [solo]: the step is computed from the hypotheses on the
    store, the rest of the goroutine is left as the goal. *)
Ltac solo_next :=
  etrans; [apply solo_step; cbn [step1];
           match goal with
           | |- context [heap ?s !! ?p] =>
               let H := fresh in
               eassert (heap s !! p = Some _) as H by lookup_promise;
               rewrite H; clear H
           | _ => idtac
           end;
           simpl_promise; reflexivity
         | simpl_promise ].


(** Runs a closed exploration: the tree of runs is computed, every leaf is
    an equation between equal terms. *)
Ltac explore := vm_compute; repeat split.

(** The same with handlers that are variables: the tree is walked node by
    node, and [use] puts in, where a handler has just been called, the
    outcome the hypotheses give for that call. *)
Ltac explore_using use :=
  lazymatch goal with
  | |- explored (S _) _ _ =>
      eapply explored_node;
        [ vm_compute; reflexivity
        | vm_compute; repeat split
        | use; repeat (constructor; [explore_using use|]);
          try apply Forall_nil_2 ]
  | |- explored O _ _ => vm_compute; repeat split
  end.

(** ** Resolve, Await and flattening *)

(** C2: for every value that is not a promise, [Resolve(v).Await()] returns
    [(v, nil)], under every schedule of the two goroutines. *)
Theorem Resolve_Await_yields (v : value) :
  is_promise v = false → yields (start (Resolve_Await v)) (v, ErrNil).
Proof.
  intros Hv.
  apply (explored_yields 9 _ _ (fun _ => True)).
  destruct v; try discriminate Hv; explore.
Qed.

Lemma Resolve_Await_yields_witness :
  yields (start (Resolve_Await (VStr "ok"))) (VStr "ok", ErrNil).
Proof. apply Resolve_Await_yields. reflexivity. Defined.

(** C4: resolving with a promise flattens it.  [Resolve(Resolve(v)).Await()]
    returns [(v, nil)], as [Resolve(v).Await()] does, and the outer promise
    ends fulfilled with both channels drained, as the promise of
    [Resolve(v)] does; the value returned is [v], not a promise. *)
Theorem Resolve_flattens (v : value) :
  is_promise v = false →
  (yields (start (Resolve_Resolve_Await v)) (v, ErrNil) ∧
   ends_with (start (Resolve_Resolve_Await v)) (settled 1 FULFILLED None None)) ∧
  (yields (start (Resolve_Await v)) (v, ErrNil) ∧
   ends_with (start (Resolve_Await v)) (settled 0 FULFILLED None None)).
Proof.
  intros Hv. split.
  - apply (explored_both 23). destruct v; try discriminate Hv; explore.
  - apply (explored_both 9). destruct v; try discriminate Hv; explore.
Qed.

Lemma Resolve_flattens_witness :
  (yields (start (Resolve_Resolve_Await (VInt 5))) (VInt 5, ErrNil) ∧
   ends_with (start (Resolve_Resolve_Await (VInt 5)))
     (settled 1 FULFILLED None None)) ∧
  (yields (start (Resolve_Await (VInt 5))) (VInt 5, ErrNil) ∧
   ends_with (start (Resolve_Await (VInt 5))) (settled 0 FULFILLED None None)).
Proof. apply Resolve_flattens. reflexivity. Defined.

(** C3, as the code has it: for every error that is not nil,
    [Resolve(Reject(errX))] settles as rejected and its [Await()] returns
    [(nil, errX)].  For the nil error [Await()] returns [(nil, nil)] as well,
    but the outer promise is fulfilled: the inner [Await()] hands
    [resolve] a nil error, and [resolve] takes the branch that sends. *)
Theorem Resolve_Reject_settles (msg : string) :
  (yields (start (Resolve_Reject_Await (Err msg))) (VNil, Err msg) ∧
   ends_with (start (Resolve_Reject_Await (Err msg)))
     (settled 1 REJECTED None None)) ∧
  ends_with (start (Resolve_Reject (Err msg)))
    (settled 1 REJECTED None (Some (Err msg))) ∧
  (yields (start (Resolve_Reject_Await ErrNil)) (VNil, ErrNil) ∧
   ends_with (start (Resolve_Reject_Await ErrNil))
     (settled 1 FULFILLED None None)).
Proof.
  split; [|split].
  - apply (explored_both 19). explore.
  - apply (explored_ends_with 15 _ (Some 1%nat)). explore.
  - apply (explored_both 18). explore.
Qed.

(** C3 fails at the nil error: under the schedule that runs the three
    goroutines one after the other, [Resolve(Reject(nil))] ends fulfilled,
    the nil value having gone through its value channel. *)
Lemma Resolve_Reject_nil_fulfilled :
  ∃ c, run (sched (replicate 4 Caller ++ replicate 3 (Goroutine 0) ++
                   replicate 7 (Goroutine 1) ++ replicate 4 Caller))
           (start (Resolve_Reject_Await ErrNil)) = Some c ∧
       quiescent c ∧ caller c = Ret (VNil, ErrNil) ∧
       state_of c 1 = Some FULFILLED ∧ state_of c 1 ≠ Some REJECTED ∧
       result <$> heap (shared c) !! 1%nat = Some VNil.
Proof. eexists. split; [vm_compute; reflexivity|]. vm_compute. by repeat split. Qed.

(** C1, as the code has it: [resolve] called on a pending promise with a
    promise whose error channel holds a non-nil error ends with the outer
    state [REJECTED] and that error in the outer error channel; the value
    channel of the outer promise is not written. *)
Theorem resolve_rejected_inner_state (σ : store) (outer inner : loc)
    (Po Pi : Promise) (msg : string) :
  heap σ !! outer = Some Po → heap σ !! inner = Some Pi → outer ≠ inner →
  state Po = PENDING → rejectChannel Po = None →
  resolveChannel Pi = None → rejectChannel Pi = Some (Err msg) →
  ∃ σ', solo 8 (resolve outer (VPromise inner)) σ = [(Ret tt, σ')] ∧
        state <$> heap σ' !! outer = Some REJECTED ∧
        rejectChannel <$> heap σ' !! outer = Some (Some (Err msg)) ∧
        resolveChannel <$> heap σ' !! outer = Some (resolveChannel Po).
Proof.
  intros Ho Hi Hne Hst Hrej Hires Hirej.
  eexists. split.
  - unfold resolve, reject, Await. do 8 solo_next. reflexivity.
  - eassert (heap _ !! outer = Some _) as -> by lookup_promise.
    by simpl_promise.
Qed.

Lemma resolve_rejected_inner_state_witness :
  ∃ σ', solo 8 (resolve 0 (VPromise 1))
          (only [fresh; mkPromise REJECTED None (Some (Err "boom")) VNil ErrNil])
        = [(Ret tt, σ')] ∧
        state <$> heap σ' !! 0%nat = Some REJECTED ∧
        rejectChannel <$> heap σ' !! 0%nat = Some (Some (Err "boom")) ∧
        resolveChannel <$> heap σ' !! 0%nat = Some (resolveChannel fresh).
Proof.
  apply (resolve_rejected_inner_state _ 0%nat 1%nat fresh
           (mkPromise REJECTED None (Some (Err "boom")) VNil ErrNil) "boom");
    (reflexivity || lia).
Defined.

(** C1 fails: in [Resolve(Reject(errors.New("boom")))] the outer [resolve]
    goes through [promise.reject(err); return], and the outer promise ends
    with state [REJECTED], not [FULFILLED]. *)
Lemma resolve_rejected_inner_not_fulfilled :
  ∃ c, run (sched (replicate 4 Caller ++ replicate 3 (Goroutine 0) ++
                   replicate 8 (Goroutine 1)))
           (start (Resolve_Reject (Err "boom"))) = Some c ∧
       quiescent c ∧ pool (shared c) = [Ret tt; Ret tt] ∧
       state_of c 1 = Some REJECTED ∧ state_of c 1 ≠ Some FULFILLED.
Proof. eexists. split; [vm_compute; reflexivity|]. vm_compute. by repeat split. Qed.

(** ** The guard of [resolve] and [reject] *)

(** C5: on a promise whose state is [FULFILLED] or [REJECTED], a call of
    [resolve] or of [reject] reads the state and returns: one step, the store
    as it was, no panic.  So the first settlement wins: an executor that
    settles three times leaves the first result to [Await()]. *)
Theorem settled_guard (σ : store) (p : loc) (P : Promise) (v : value) :
  heap σ !! p = Some P → state P = FULFILLED ∨ state P = REJECTED →
  is_promise v = false →
  (∀ v', step1 (resolve p v') σ = [(Ret tt, σ)]) ∧
  (∀ e, step1 (reject p e) σ = [(Ret tt, σ)]) ∧
  (∀ e v', yields (start (New_Await (resolve_reject_resolve v e v')))
             (v, ErrNil)) ∧
  (∀ e v' e', yields (start (New_Await (reject_resolve_reject e v' e')))
                (VNil, e)).
Proof.
  intros HP Hst Hv. split; [|split; [|split]].
  - intros v'. simpl. rewrite HP. by destruct Hst as [-> | ->].
  - intros e. simpl. rewrite HP. by destruct Hst as [-> | ->].
  - intros e v'. apply (explored_yields 11 _ _ (fun _ => True)).
    destruct v; try discriminate Hv; explore.
  - intros e v' e'. apply (explored_yields 11 _ _ (fun _ => True)). explore.
Qed.

Lemma settled_guard_witness :
  (∀ v', step1 (resolve 0 v')
           (only [mkPromise FULFILLED (Some (VInt 1)) None VNil ErrNil])
         = [(Ret tt, only [mkPromise FULFILLED (Some (VInt 1)) None VNil ErrNil])]) ∧
  (∀ e, step1 (reject 0 e)
          (only [mkPromise FULFILLED (Some (VInt 1)) None VNil ErrNil])
        = [(Ret tt, only [mkPromise FULFILLED (Some (VInt 1)) None VNil ErrNil])]) ∧
  (∀ e v', yields (start (New_Await (resolve_reject_resolve (VInt 1) e v')))
             (VInt 1, ErrNil)) ∧
  (∀ e v' e', yields (start (New_Await (reject_resolve_reject e v' e')))
                (VNil, e)).
Proof.
  apply (settled_guard _ 0%nat (mkPromise FULFILLED (Some (VInt 1)) None VNil ErrNil));
    [reflexivity|by left|reflexivity].
Defined.

(** ** Panic recovery *)

(** C6, at a recovered nil: [handlePanic] enters its [switch] only when
    [e != nil], so the arm [case nil] is never taken.  An executor that
    panics with nil is recovered and nothing is rejected: the promise stays
    pending with both channels empty, and [Await()] never returns.  The two
    other shapes are as the claim says. *)
Theorem handlePanic_nil_no_rejection :
  (∀ p, handlePanic p RecoveredNil = Ret tt) ∧
  ends_with (start (Panic_Await RecoveredNil))
    (fun c => settled 0 PENDING None None c ∧ caller c = Await 0 ∧
              pool (shared c) = [Ret tt]) ∧
  (∀ msg, yields (start (Panic_Await (RecoveredError msg)))
            (VNil, Err ("panic recovery with error: " +:+ msg))) ∧
  (∀ s, yields (start (Panic_Await (RecoveredOther s)))
          (VNil, Err ("panic recovery with unknown error: " +:+ s))).
Proof.
  split; [done|split; [|split]].
  - apply (explored_ends_with 2 _ None). explore.
  - intros msg. apply (explored_yields 9 _ _ (fun _ => True)). explore.
  - intros s. apply (explored_yields 9 _ _ (fun _ => True)). explore.
Qed.

(** C10, as the code has it: when the state read by the recovery is still
    [FULFILLED] or [REJECTED], the rejection made from the panic is dropped,
    the store left as it was.  It always is when the promise is only
    awaited: an executor that settles and then panics leaves its settlement
    to [Await()], whatever it panics with. *)
Theorem panic_after_settle_dropped (σ : store) (p : loc) (P : Promise)
    (x : recovered) (v : value) (e : error) :
  heap σ !! p = Some P → state P = FULFILLED ∨ state P = REJECTED →
  is_promise v = false →
  solo 1 (handlePanic p x) σ = [(Ret tt, σ)] ∧
  (yields (start (New_Await (resolve_then v (Panic x)))) (v, ErrNil) ∧
   ends_with (start (New_Await (resolve_then v (Panic x))))
     (settled 0 FULFILLED None None)) ∧
  (yields (start (New_Await (reject_then e (Panic x)))) (VNil, e) ∧
   ends_with (start (New_Await (reject_then e (Panic x))))
     (settled 0 REJECTED None None)).
Proof.
  intros HP Hst Hv. split; [|split].
  - destruct x; [done| |]; simpl; rewrite HP;
      by destruct Hst as [-> | ->].
  - apply (explored_both 10).
    destruct v; try discriminate Hv; destruct x; explore.
  - apply (explored_both 10). destruct x; explore.
Qed.

Lemma panic_after_settle_dropped_witness :
  solo 1 (handlePanic 0 (RecoveredOther "boom"))
    (only [mkPromise FULFILLED (Some (VInt 1)) None VNil ErrNil])
  = [(Ret tt, only [mkPromise FULFILLED (Some (VInt 1)) None VNil ErrNil])] ∧
  (yields (start (New_Await (resolve_then (VInt 1)
                               (Panic (RecoveredOther "boom")))))
     (VInt 1, ErrNil) ∧
   ends_with (start (New_Await (resolve_then (VInt 1)
                                  (Panic (RecoveredOther "boom")))))
     (settled 0 FULFILLED None None)) ∧
  (yields (start (New_Await (reject_then (Err "no")
                               (Panic (RecoveredOther "boom")))))
     (VNil, Err "no") ∧
   ends_with (start (New_Await (reject_then (Err "no")
                                  (Panic (RecoveredOther "boom")))))
     (settled 0 REJECTED None None)).
Proof.
  apply (panic_after_settle_dropped _ 0%nat
           (mkPromise FULFILLED (Some (VInt 1)) None VNil ErrNil));
    [reflexivity|by left|reflexivity].
Defined.

(** C10 fails once a [Then] has taken the value: [Then] resets the state of
    its parent to [PENDING], the guard of [reject] then lets the rejection
    made from the panic through.  The executor resolves with 1 and panics
    with "boom"; the schedule runs [resolve], then the [select] and the
    [resetState] of [Then], then the recovery. *)
Lemma panic_after_Then_reset_rejects :
  ∃ c, run (sched (replicate 4 Caller ++ replicate 3 (Goroutine 0) ++
                   replicate 2 (Goroutine 1) ++ replicate 3 (Goroutine 0) ++
                   replicate 4 (Goroutine 1)))
           (start (New_Then (resolve_then (VInt 1)
                               (Panic (RecoveredOther "boom")))
                     Returns Returns)) = Some c ∧
       quiescent c ∧ caller c = Ret (0%nat, 1%nat) ∧
       settled 0 REJECTED None
         (Some (Err "panic recovery with unknown error: boom")) c ∧
       events (shared c) = [OnFulfill_called 0 (VInt 1)].
Proof. eexists. split; [vm_compute; reflexivity|]. vm_compute. by repeat split. Qed.

(** ** Chains *)

(** C7: in [Reject(errX).Then(f, g).Await()], when [g(errX)] returns [e'],
    [Await()] returns [(nil, e')] ([e'] may be nil), and the handler calls
    made are the one call [g(errX)]: [f] is not called.  The promise [Then]
    returned ends rejected. *)
Theorem Reject_Then_short_circuit (errX : error) (f : value → outcome value)
    (g : error → outcome error) (e' : error) :
  g errX = Returns e' →
  yields (start (Reject_Then_Await errX f g)) (VNil, e') ∧
  ends_with (start (Reject_Then_Await errX f g))
    (fun c => events (shared c) = [OnRejection_called 0 errX] ∧
              settled 1 REJECTED None None c).
Proof.
  intros Hg. apply (explored_both 16). explore_using ltac:(rewrite ?Hg).
Qed.

Lemma Reject_Then_short_circuit_witness :
  yields (start (Reject_Then_Await (Err "boom") Returns swallow)) (VNil, ErrNil) ∧
  ends_with (start (Reject_Then_Await (Err "boom") Returns swallow))
    (fun c => events (shared c) = [OnRejection_called 0 (Err "boom")] ∧
              settled 1 REJECTED None None c).
Proof. apply Reject_Then_short_circuit. reflexivity. Defined.

(** C9, as the code has it: a reject handler that returns nil does not turn
    the chain back to fulfilled.  [Catch] passes the nil to [reject]: the
    promise it returned ends rejected with nil in its error channel;
    [Await()] on it returns [(nil, nil)]; a [Then] chained after it calls its
    reject handler with nil, never its fulfill handler, and ends rejected
    too. *)
Theorem swallowed_error_stays_rejected (e : error) (h : error → outcome error)
    (f : value → outcome value) (g : error → outcome error) (e' : error) :
  h e = Returns ErrNil → g ErrNil = Returns e' →
  ends_with (start (Reject_Catch e h))
    (settled 1 REJECTED None (Some ErrNil)) ∧
  yields (start (Reject_Catch_Await e h)) (VNil, ErrNil) ∧
  (yields (start (Reject_Catch_Then_Await e h f g)) (VNil, e') ∧
   ends_with (start (Reject_Catch_Then_Await e h f g))
     (fun c => events (shared c)
               = [OnRejection_called 0 e; OnRejection_called 1 ErrNil] ∧
               settled 1 REJECTED None None c ∧
               settled 2 REJECTED None None c)).
Proof.
  intros Hh Hg. split; [|split].
  - apply (explored_ends_with 12 _ (Some 1%nat)).
    explore_using ltac:(rewrite ?Hh).
  - apply (explored_yields 16 _ _ (fun _ => True)).
    explore_using ltac:(rewrite ?Hh).
  - apply (explored_both 23). explore_using ltac:(rewrite ?Hh, ?Hg).
Qed.

Lemma swallowed_error_stays_rejected_witness :
  ends_with (start (Reject_Catch (Err "boom") swallow))
    (settled 1 REJECTED None (Some ErrNil)) ∧
  yields (start (Reject_Catch_Await (Err "boom") swallow)) (VNil, ErrNil) ∧
  (yields (start (Reject_Catch_Then_Await (Err "boom") swallow Returns Returns))
     (VNil, ErrNil) ∧
   ends_with (start (Reject_Catch_Then_Await (Err "boom") swallow Returns Returns))
     (fun c => events (shared c)
               = [OnRejection_called 0 (Err "boom"); OnRejection_called 1 ErrNil] ∧
               settled 1 REJECTED None None c ∧
               settled 2 REJECTED None None c)).
Proof. apply swallowed_error_stays_rejected; reflexivity. Defined.

(** C9 fails: in [Reject(errors.New("boom")).Catch(swallow).Then(f, g)] the
    promise [Catch] returned ends with state [REJECTED], and the [Then] after
    it calls [g(nil)], not [f]. *)
Lemma swallow_not_healed :
  ∃ c, run (sched (replicate 6 Caller ++ replicate 3 (Goroutine 0) ++
                   replicate 5 (Goroutine 1) ++ replicate 5 (Goroutine 2) ++
                   replicate 4 Caller))
           (start (Reject_Catch_Then_Await (Err "boom") swallow Returns Returns))
         = Some c ∧
       quiescent c ∧ caller c = Ret (VNil, ErrNil) ∧
       state_of c 1 = Some REJECTED ∧ state_of c 1 ≠ Some FULFILLED ∧
       state_of c 2 = Some REJECTED ∧
       events (shared c)
       = [OnRejection_called 0 (Err "boom"); OnRejection_called 1 ErrNil].
Proof. eexists. split; [vm_compute; reflexivity|]. vm_compute. by repeat split. Qed.

(** ** The reset in [Then] *)

Lemma Then_rejection_writes (parent self : loc) (g : error → outcome error)
    (e : error) :
  writes_state parent
    (defer_recover (handlePanic self)
       (e' ← call (OnRejection_called parent e) (g e); reject self e')) →
  self = parent.
Proof.
  intros [Hw|[x Hw]]%writes_state_defer.
  - simpl in Hw. destruct (g e); simpl in Hw; [|done].
    by apply reject_writes in Hw.
  - by apply handlePanic_writes in Hw.
Qed.

(** The goroutine that [Then] starts, for a promise [self] that is not its
    parent: on the value of the parent it sets the state of the parent to
    [PENDING] as its very next step; on an error, nothing it does from there
    changes the state of the parent; nor does anything the goroutines of
    [Catch] and of [Finally] do. *)
Lemma Then_goroutine_resets_parent (parent self : loc)
    (f : value → outcome value) (g : error → outcome error)
    (fin : outcome value) :
  self ≠ parent →
  (∀ σ P r, heap σ !! parent = Some P →
     resolveChannel P = Some r → rejectChannel P = None →
     ∃ σ', solo 2 (goroutine self (Then_executor parent f g)) σ
           = [(defer_recover (handlePanic self)
                 (v ← call (OnFulfill_called parent r) (f r); resolve self v),
               σ')] ∧
           state <$> heap σ' !! parent = Some PENDING) ∧
  (∀ σ P e, heap σ !! parent = Some P →
     resolveChannel P = None → rejectChannel P = Some e →
     ∃ m, step1 (goroutine self (Then_executor parent f g)) σ
          = [(m, modify parent (with_rejectChannel None) σ)] ∧
          keeps_state parent m) ∧
  keeps_state parent (goroutine self (Catch_executor parent g)) ∧
  keeps_state parent (goroutine self (Finally_executor parent fin)).
Proof.
  intros Hne. split; [|split; [|split]].
  - intros σ P r HP Hres Hrej. eexists. split.
    + unfold goroutine, Then_executor, resetState.
      cbn [defer_recover mbind prog_bind bind].
      do 2 solo_next. reflexivity.
    + eassert (heap _ !! parent = Some _) as -> by lookup_promise.
      reflexivity.
  - intros σ P e HP Hres Hrej. eexists. split.
    + unfold goroutine, Then_executor.
      cbn [defer_recover mbind prog_bind bind step1].
      rewrite HP, Hres, Hrej. reflexivity.
    + apply no_write_keeps_state.
      intros Hw. by apply Hne, (Then_rejection_writes parent self g e).
  - apply no_write_keeps_state.
    intros Hw. by apply Hne, (Catch_goroutine_writes parent self g).
  - apply no_write_keeps_state.
    intros Hw. by apply Hne, (Finally_goroutine_writes parent self fin).
Qed.

(** C8: [parent.Then(f, g)] on any store where [parent] is allocated.  The
    call allocates the new promise at [length (heap σ)], starts one
    goroutine and returns the new promise.  When the parent holds a value,
    that goroutine receives it and sets the state of the parent to
    [PENDING], whatever it was, as its very next step; what is left of it
    then is the call of [OnFulfill] and the [resolve] of the new promise.
    When the parent holds an error, nothing the goroutine does after
    receiving it changes the state of the parent.  [parent.Catch(h)] and
    [parent.Finally(onFinally)] allocate and start a goroutine in the same
    way, and nothing that goroutine does, on either branch, changes the
    state of the parent. *)
Theorem Then_resets_parent_only (σ : store) (parent : loc) (P : Promise)
    (f : value → outcome value) (g h : error → outcome error)
    (onFinally : outcome value) :
  heap σ !! parent = Some P →
  (∃ body σ1,
     solo 2 (Then parent f g) σ = [(Ret (length (heap σ)), σ1)] ∧
     heap σ1 = heap σ ++ [fresh] ∧ pool σ1 = pool σ ++ [body] ∧
     (∀ r, resolveChannel P = Some r → rejectChannel P = None →
        ∃ σ2, solo 2 body σ1
              = [(defer_recover (handlePanic (length (heap σ)))
                    (v ← call (OnFulfill_called parent r) (f r);
                     resolve (length (heap σ)) v),
                  σ2)] ∧
              state <$> heap σ2 !! parent = Some PENDING) ∧
     (∀ e, resolveChannel P = None → rejectChannel P = Some e →
        ∃ m, step1 body σ1
             = [(m, modify parent (with_rejectChannel None) σ1)] ∧
             keeps_state parent m)) ∧
  (∃ body σ1,
     solo 2 (Catch parent h) σ = [(Ret (length (heap σ)), σ1)] ∧
     heap σ1 = heap σ ++ [fresh] ∧ pool σ1 = pool σ ++ [body] ∧
     keeps_state parent body) ∧
  (∃ body σ1,
     solo 2 (Finally parent onFinally) σ = [(Ret (length (heap σ)), σ1)] ∧
     heap σ1 = heap σ ++ [fresh] ∧ pool σ1 = pool σ ++ [body] ∧
     keeps_state parent body).
Proof.
  intros HP.
  assert (length (heap σ) ≠ parent) as Hne.
  { apply lookup_lt_Some in HP. lia. }
  destruct (Then_goroutine_resets_parent parent (length (heap σ)) f g
              onFinally Hne) as (Hful & Hrej & _ & HFinally).
  destruct (Then_goroutine_resets_parent parent (length (heap σ)) f h
              onFinally Hne) as (_ & _ & HCatch & _).
  split; [|split].
  - eexists _, _. split; [reflexivity|]. split; [reflexivity|].
    split; [reflexivity|]. split.
    + intros r Hres Hrejc. apply (Hful _ P r); [|done..].
      simpl. by apply lookup_app_l_Some.
    + intros e Hres Hrejc. apply (Hrej _ P e); [|done..].
      simpl. by apply lookup_app_l_Some.
  - eexists _, _. split; [reflexivity|]. split; [reflexivity|].
    split; [reflexivity|]. exact HCatch.
  - eexists _, _. split; [reflexivity|]. split; [reflexivity|].
    split; [reflexivity|]. exact HFinally.
Qed.

Lemma Then_resets_parent_only_witness :
  (∃ body σ1,
     solo 2 (Then 0 Returns Returns) (only [(mkPromise FULFILLED (Some (VInt 1)) None VNil ErrNil)]) = [(Ret 1%nat, σ1)] ∧
     heap σ1 = [(mkPromise FULFILLED (Some (VInt 1)) None VNil ErrNil); fresh] ∧ pool σ1 = [body] ∧
     (∀ r, resolveChannel (mkPromise FULFILLED (Some (VInt 1)) None VNil ErrNil) = Some r → rejectChannel (mkPromise FULFILLED (Some (VInt 1)) None VNil ErrNil) = None →
        ∃ σ2, solo 2 body σ1
              = [(defer_recover (handlePanic 1)
                    (v ← call (OnFulfill_called 0 r) (Returns r); resolve 1 v),
                  σ2)] ∧
              state <$> heap σ2 !! 0%nat = Some PENDING) ∧
     (∀ e, resolveChannel (mkPromise FULFILLED (Some (VInt 1)) None VNil ErrNil) = None → rejectChannel (mkPromise FULFILLED (Some (VInt 1)) None VNil ErrNil) = Some e →
        ∃ m, step1 body σ1
             = [(m, modify 0 (with_rejectChannel None) σ1)] ∧
             keeps_state 0 m)) ∧
  (∃ body σ1,
     solo 2 (Catch 0 Returns) (only [(mkPromise FULFILLED (Some (VInt 1)) None VNil ErrNil)]) = [(Ret 1%nat, σ1)] ∧
     heap σ1 = [(mkPromise FULFILLED (Some (VInt 1)) None VNil ErrNil); fresh] ∧ pool σ1 = [body] ∧ keeps_state 0 body) ∧
  (∃ body σ1,
     solo 2 (Finally 0 (Returns VNil)) (only [(mkPromise FULFILLED (Some (VInt 1)) None VNil ErrNil)]) = [(Ret 1%nat, σ1)] ∧
     heap σ1 = [(mkPromise FULFILLED (Some (VInt 1)) None VNil ErrNil); fresh] ∧ pool σ1 = [body] ∧ keeps_state 0 body).
Proof.
  apply (Then_resets_parent_only (only [(mkPromise FULFILLED (Some (VInt 1)) None VNil ErrNil)]) 0%nat (mkPromise FULFILLED (Some (VInt 1)) None VNil ErrNil)).
  reflexivity.
Defined.

(** ** Further properties of the combinators *)

(** [Reject(e).Await()] returns [(nil, e)] for every error, nil included, and
    the promise ends rejected. *)
Theorem Reject_Await_yields (e : error) :
  yields (start (Reject_Await e)) (VNil, e) ∧
  ends_with (start (Reject_Await e)) (settled 0 REJECTED None None).
Proof. apply (explored_both 9). explore. Qed.

(** [Resolve(v).Then(f, g).Await()] where [f(v)] returns [v']: [Await()]
    returns [(v', nil)]; [f] is called once, with [v]; [g] is not called. *)
Theorem Resolve_Then_yields (v v' : value) (f : value → outcome value)
    (g : error → outcome error) :
  is_promise v = false → is_promise v' = false → f v = Returns v' →
  yields (start (Resolve_Then_Await v f g)) (v', ErrNil) ∧
  ends_with (start (Resolve_Then_Await v f g))
    (fun c => events (shared c) = [OnFulfill_called 0 v] ∧
              settled 1 FULFILLED None None c).
Proof.
  intros Hv Hv' Hf. apply (explored_both 18).
  destruct v; try discriminate Hv; destruct v'; try discriminate Hv';
    explore_using ltac:(rewrite ?Hf).
Qed.

Lemma Resolve_Then_yields_witness :
  yields (start (Resolve_Then_Await (VInt 1) (fun _ => Returns (VInt 2)) Returns))
    (VInt 2, ErrNil) ∧
  ends_with (start (Resolve_Then_Await (VInt 1) (fun _ => Returns (VInt 2)) Returns))
    (fun c => events (shared c) = [OnFulfill_called 0 (VInt 1)] ∧
              settled 1 FULFILLED None None c).
Proof. apply Resolve_Then_yields; reflexivity. Defined.

(** [Resolve(v).Then(f, g).Await()] where [f(v)] panics with a value that is
    not nil and not an error: the promise [Then] returned ends rejected, with
    the text of the panic in the error [Await()] returns. *)
Theorem Resolve_Then_panic_rejects (v : value) (s : string)
    (f : value → outcome value) (g : error → outcome error) :
  is_promise v = false → f v = Panics (RecoveredOther s) →
  yields (start (Resolve_Then_Await v f g))
    (VNil, Err ("panic recovery with unknown error: " +:+ s)) ∧
  ends_with (start (Resolve_Then_Await v f g)) (settled 1 REJECTED None None).
Proof.
  intros Hv Hf. apply (explored_both 18).
  destruct v; try discriminate Hv; explore_using ltac:(rewrite ?Hf).
Qed.

Lemma Resolve_Then_panic_rejects_witness :
  yields (start (Resolve_Then_Await (VInt 1)
                   (fun _ => Panics (RecoveredOther "boom")) Returns))
    (VNil, Err ("panic recovery with unknown error: " +:+ "boom")) ∧
  ends_with (start (Resolve_Then_Await (VInt 1)
                      (fun _ => Panics (RecoveredOther "boom")) Returns))
    (settled 1 REJECTED None None).
Proof. apply Resolve_Then_panic_rejects; reflexivity. Defined.

(** [Catch] on a fulfilled promise forwards the value and never calls its
    handler. *)
Theorem Catch_forwards (v : value) (h : error → outcome error) :
  is_promise v = false →
  yields (start (Resolve_Catch_Await v h)) (v, ErrNil) ∧
  ends_with (start (Resolve_Catch_Await v h))
    (fun c => events (shared c) = [] ∧ settled 1 FULFILLED None None c).
Proof.
  intros Hv. apply (explored_both 17).
  destruct v; try discriminate Hv; explore_using idtac.
Qed.

Lemma Catch_forwards_witness :
  yields (start (Resolve_Catch_Await (VInt 1) Returns)) (VInt 1, ErrNil) ∧
  ends_with (start (Resolve_Catch_Await (VInt 1) Returns))
    (fun c => events (shared c) = [] ∧ settled 1 FULFILLED None None c).
Proof. apply Catch_forwards. reflexivity. Defined.

(** ** Exploration that shares configurations is sound *)

Section Safe.
Context {A : Type}.
Implicit Types (c : config A) (P Q : config A → Prop).

Lemma safe_node P c (next : list (config A)) :
  succs c = next → P c → Forall (safe P) next → safe P c.
Proof.
  intros <- HP Hnext. constructor; [done|]. by apply Forall_forall.
Qed.

Lemma explored_S n P c : explored n P c → explored (S n) P c.
Proof.
  revert c. induction n as [|n IH]; intros c [HP H].
  - simpl. rewrite H. simpl. done.
  - split; [done|]. apply foldr_and_Forall. apply foldr_and_Forall in H.
    eapply Forall_impl; [exact H|]. intros c' Hc'. by apply IH.
Qed.

Lemma explored_le n m P c : (n ≤ m)%nat → explored n P c → explored m P c.
Proof. induction 1; [done|]. intros. by apply explored_S, IHle. Qed.

(** The runs from a safe configuration have a longest one. *)
Lemma safe_explored P c : safe P c → ∃ n, explored n P c.
Proof.
  induction 1 as [c HP _ IH].
  assert (∃ n, Forall (explored n P) (succs c)) as [n Hn].
  { induction (succs c) as [|c1 l IHl].
    - exists 0%nat. constructor.
    - destruct (IH c1) as [n1 H1]; [left|].
      destruct IHl as [n2 H2]. { intros c' Hc'. apply IH. by right. }
      exists (n1 `max` n2)%nat. constructor.
      + eapply explored_le; [|exact H1]. lia.
      + eapply Forall_impl; [exact H2|]. intros c' Hc'.
        eapply explored_le; [|exact Hc']. lia. }
  exists (S n). split; [done|]. by apply foldr_and_Forall.
Qed.

Lemma safe_impl P Q c : (∀ c, P c → Q c) → safe P c → safe Q c.
Proof.
  intros HPQ. induction 1 as [c HP _ IH]. constructor; [by apply HPQ|done].
Qed.

Lemma safe_reach P c c' : safe P c → rtc step c c' → P c'.
Proof.
  intros [n He]%safe_explored Hr. by eapply explored_reach.
Qed.

Lemma safe_ends_with P Q c0 :
  (∀ c, P c → if quiet c then Q c else True) → safe P c0 → ends_with c0 Q.
Proof.
  intros HPQ Hs. split.
  - destruct (safe_explored _ _ Hs) as [n He]. exists n. intros k c.
    by apply (explored_bound _ _ _ _ _ He).
  - intros c Hr Hq. apply (safe_reach _ _ _ Hs), HPQ in Hr.
    apply quiet_spec in Hq. by rewrite Hq in Hr.
Qed.

Lemma safe_both c0 (r : A) Q :
  safe (verdict (Some r) Q) c0 → yields c0 r ∧ ends_with c0 Q.
Proof.
  intros [n He]%safe_explored. by eapply explored_both.
Qed.

Lemma safe_blocks c0 Q :
  safe (verdict None Q) c0 → blocks c0 ∧ ends_with c0 Q.
Proof.
  intros Hs. split.
  - intros c r Hr Hc. apply (safe_reach _ _ _ Hs) in Hr as [H _].
    by rewrite Hc in H.
  - eapply safe_ends_with; [|exact Hs]. by intros c [_ H].
Qed.

Lemma safe_may_yield c0 (r : A) Q :
  safe (may_yield r Q) c0 → returns_only c0 r ∧ ends_with c0 Q.
Proof.
  intros Hs. split.
  - intros c r' Hr Hc. apply (safe_reach _ _ _ Hs) in Hr as [H _].
    by rewrite Hc in H.
  - eapply safe_ends_with; [|exact Hs]. by intros c [_ H].
Qed.

(** A schedule run in two parts. *)
Lemma run_app (s1 s2 : list (tid * nat)) c c1 c2 :
  run s1 c = Some c1 → run s2 c1 = Some c2 → run (s1 ++ s2) c = Some c2.
Proof.
  revert c. induction s1 as [|[t j] s1 IH]; simpl; intros c H1 H2.
  - by injection H1 as ->.
  - destruct (steps_of t c !! j); [by apply IH|done].
Qed.
End Safe.

(** The walk: a configuration met again is not walked again; the proofs
    for the configurations walked so far are the hypotheses [memo _ P _] of
    the goal.  [norm] computes a term, [side] proves that the successors
    are what [norm] computed. *)
Ltac heap_of c :=
  lazymatch c with mkConfig _ (mkStore ?h _ _) => h end.

Ltac close_forall :=
  lazymatch goal with
  | |- Forall _ [] => apply Forall_nil_2
  | |- Forall (safe ?P) (?c :: _) =>
      let h := heap_of c in
      apply Forall_cons_2;
        [ lazymatch goal with H : memo h P c |- _ => exact H end
        | close_forall ]
  end.

Ltac check_here :=
  vm_compute; repeat split;
  first [ done | left; by repeat split | right; by repeat split ].

Ltac visit norm side P c :=
  let h := heap_of c in
  lazymatch goal with
  | H : memo h P c |- _ => idtac
  | _ =>
      let next := norm (succs c) in
      visit_list norm side P next;
      assert (memo h P c) by
        (apply (safe_node P c next); [ side | check_here | close_forall ])
  end
with visit_list norm side P l :=
  lazymatch l with
  | nil => idtac
  | ?c :: ?rest => visit norm side P c; visit_list norm side P rest
  end.

Ltac explore_dag_with norm side :=
  lazymatch goal with
  | |- safe ?P ?c =>
      let c' := norm c in
      change (safe P c'); visit norm side P c';
      let h := heap_of c' in
      lazymatch goal with H : memo h P c' |- _ => exact H end
  end.

Ltac explore_dag :=
  explore_dag_with ltac:(fun t => eval vm_compute in t)
                   ltac:(vm_compute; reflexivity).

(** With handlers that are variables: [H] gives the outcome of the call. *)
Ltac put H t :=
  lazymatch type of H with
  | ?l = ?r =>
      lazymatch (eval pattern l in t) with
      | ?F _ => eval cbv beta in (F r)
      end
  end.

Ltac explore_dag_using H :=
  explore_dag_with
    ltac:(fun t => let t1 := eval vm_compute in t in
                   let t2 := put H t1 in
                   eval vm_compute in t2)
    ltac:(vm_compute; rewrite ?H; vm_compute; reflexivity).

Ltac explore_dag_using2 H1 H2 :=
  explore_dag_with
    ltac:(fun t => let t1 := eval vm_compute in t in
                   let t2 := put H1 t1 in
                   let t3 := put H2 t2 in
                   eval vm_compute in t3)
    ltac:(vm_compute; rewrite ?H1, ?H2; vm_compute; reflexivity).

(** With the arithmetic of the first handler of [main] left folded where it
    waits in a closure. *)
Ltac explore_main :=
  explore_dag_with ltac:(fun t => eval cbv -[wrap_int Z.add] in t)
                   ltac:(cbv -[wrap_int Z.add]; reflexivity).

(** What one goroutine reaches in a step from a safe configuration is safe. *)
Lemma safe_succ_of {A : Type} (P : config A → Prop) (c c' : config A)
    (t : tid) :
  safe P c → t ∈ threads c → c' ∈ steps_of t c → safe P c'.
Proof.
  intros [_ H] Ht Hc'. apply H. unfold succs.
  apply list_elem_of_bind. by exists t.
Qed.

(** [seed ts H] files [H : safe P c], and the configurations that the
    goroutines [ts] reach from [c], as walked: the walk stops at them.  This
    is how a lemma or an induction hypothesis about a goroutine that is left
    symbolic is used. *)
Ltac elem_now := first [ left | right; elem_now ].

Ltac seed_with norm use ts H :=
  lazymatch type of H with
  | safe ?P ?c =>
      let c' := norm c in
      let h := heap_of c' in
      lazymatch goal with
      | _ : memo h P c' |- _ => idtac
      | _ =>
          assert (memo h P c') by exact H;
          seed_threads norm use ts ts P c'
      end
  end
with seed_threads norm use ts todo P c :=
  lazymatch todo with
  | nil => idtac
  | ?t :: ?rest =>
      let next := norm (steps_of t c) in
      seed_list norm use ts P c t next;
      seed_threads norm use ts rest P c
  end
with seed_list norm use ts P c t next :=
  lazymatch next with
  | nil => idtac
  | ?c1 :: ?more =>
      let h := heap_of c in
      let H1 := fresh "Hseed" in
      assert (safe P c1) as H1
        by (apply (safe_succ_of P c c1 t);
            [ lazymatch goal with H : memo h P c |- _ => exact H end
            | vm_compute; elem_now
            | vm_compute; use; vm_compute; left ]);
      seed_with norm use ts H1;
      seed_list norm use ts P c t more
  end.

Ltac seed ts H :=
  seed_with ltac:(fun t => eval vm_compute in t) ltac:(idtac) ts H.

Ltac seed_using Hf ts H :=
  seed_with
    ltac:(fun t => let t1 := eval vm_compute in t in
                   let t2 := put Hf t1 in
                   eval vm_compute in t2)
    ltac:(rewrite ?Hf) ts H.

(** A schedule run in two parts, the outcome [H] gives for the handler
    called in the first part put in between. *)
Ltac run_in_two H :=
  lazymatch goal with
  | |- run (?s1 ++ ?s2) ?c = Some _ =>
      let r := eval vm_compute in (run s1 c) in
      let r' := put H r in
      lazymatch r' with
      | Some ?c1 =>
          apply (run_app s1 s2 c c1);
            [ vm_compute; rewrite ?H; reflexivity | vm_compute; reflexivity ]
      end
  end.

(** ** Programs that exit when the caller returns *)

Lemma program_rtc_step {A : Type} (c c' : config A) :
  rtc program_step c c' → rtc step c c'.
Proof. apply rtc_subrel. by intros x y [_ H]. Qed.

Lemma program_nsteps_step {A : Type} (k : nat) (c c' : config A) :
  nsteps program_step k c c' → nsteps step k c c'.
Proof.
  induction 1 as [|k c c1 c' [_ Hs] _ IH]; [constructor|].
  by eapply nsteps_l.
Qed.

(** From a safe configuration, every run of the program is finite, and it
    ends with the caller having returned, [Q] holding at that moment. *)
Lemma safe_program {A : Type} (Q : A → config A → Prop) (c0 : config A) :
  safe (on_return Q) c0 →
  (∃ n, ∀ k c, nsteps program_step k c0 c → (k ≤ n)%nat) ∧
  (∀ c, rtc program_step c0 c → (∀ c', ¬ program_step c c') →
        ∃ r, caller c = Ret r ∧ Q r c).
Proof.
  intros Hs. split.
  - destruct (safe_explored _ _ Hs) as [n He]. exists n. intros k c Hk.
    eapply explored_bound; [exact He|]. by apply program_nsteps_step.
  - intros c Hr Hend.
    apply program_rtc_step, (safe_reach _ _ _ Hs) in Hr.
    unfold on_return in Hr.
    destruct (caller c) as [r| | | | | | | | | | | | |] eqn:Hc;
      try (exfalso; unfold quiet in Hr;
           destruct (succs c) as [|c' l] eqn:Hsuccs; [done|];
           apply (Hend c'); split;
           [unfold exited; by rewrite Hc
           |unfold step; rewrite Hsuccs; left]).
    by exists r.
Qed.

(** ** Panics and the deferred call of [New] *)

Lemma panics_defer {A : Type} (d : recovered → prog A) (m : prog A) :
  panics (defer_recover d m) → ∃ v, panics (d v).
Proof.
  induction m; simpl; naive_solver.
Qed.

Lemma reject_panics (p : loc) (e : error) : ¬ panics (reject p e).
Proof.
  unfold reject. simpl. intros [s Hs].
  by destruct (negb (s =? PENDING)).
Qed.

(** A goroutine that has a step to one that can panic can panic. *)
Lemma step1_panics_back {A : Type} (m m' : prog A) (σ σ' : store) :
  (m', σ') ∈ step1 m σ → panics m' → panics m.
Proof.
  intros Hstep Hm'.
  destruct m; simpl in Hstep |- *;
    repeat match type of Hstep with
    | _ ∈ match ?x with _ => _ end => destruct x eqn:?
    | _ ∈ _ ++ _ => apply elem_of_app in Hstep as [Hstep|Hstep]
    end;
    try (by apply elem_of_nil in Hstep);
    apply list_elem_of_singleton in Hstep; injection Hstep as -> ->;
    naive_solver.
Qed.

Lemma thread_steps_panics_back {A : Type} (m m' : prog A) (σ σ' : store) :
  rtc thread_step (m, σ) (m', σ') → panics m' → panics m.
Proof.
  intros Hr. remember (m, σ) as a eqn:Ha. remember (m', σ') as b eqn:Hb.
  revert m σ Ha.
  induction Hr as [a|a [m1 σ1] b Hstep _ IH]; intros m σ -> Hm'.
  - by injection Hb as -> ->.
  - eapply step1_panics_back; [exact Hstep|]. by eapply IH.
Qed.

(** ** [Finally] *)

(** [Resolve(v).Finally(onFinally).Await()] returns [(v, nil)] when the
    callback returns, and when it panics with nil, with an error whose
    [Error()] returns a text, or with a value that is no error: it is
    called once, after the new promise is settled, and the rejection that
    [handlePanic] makes of its panic is dropped by the guard. *)
Theorem Finally_forwards_value (v : value) :
  is_promise v = false →
  (∀ a,
     yields (start (Resolve_Finally_Await v (Returns a))) (v, ErrNil) ∧
     ends_with (start (Resolve_Finally_Await v (Returns a)))
       (fun c => events (shared c) = [onFinally_called 0] ∧
                 settled 1 FULFILLED None None c ∧
                 pool (shared c) = [Ret tt; Ret tt])) ∧
  (yields (start (Resolve_Finally_Await v (Panics RecoveredNil))) (v, ErrNil) ∧
   ends_with (start (Resolve_Finally_Await v (Panics RecoveredNil)))
     (fun c => events (shared c) = [onFinally_called 0] ∧
               settled 1 FULFILLED None None c ∧
               pool (shared c) = [Ret tt; Ret tt])) ∧
  (∀ msg,
     yields (start (Resolve_Finally_Await v (Panics (RecoveredError msg)))) (v, ErrNil) ∧
     ends_with (start (Resolve_Finally_Await v (Panics (RecoveredError msg))))
       (fun c => events (shared c) = [onFinally_called 0] ∧
                 settled 1 FULFILLED None None c ∧
                 pool (shared c) = [Ret tt; Ret tt])) ∧
  (∀ s,
     yields (start (Resolve_Finally_Await v (Panics (RecoveredOther s)))) (v, ErrNil) ∧
     ends_with (start (Resolve_Finally_Await v (Panics (RecoveredOther s))))
       (fun c => events (shared c) = [onFinally_called 0] ∧
                 settled 1 FULFILLED None None c ∧
                 pool (shared c) = [Ret tt; Ret tt])).
Proof.
  intros Hv.
  split; [|split; [|split]]; intros; apply safe_both;
    (destruct v; try discriminate Hv; explore_dag).
Qed.

Lemma Finally_forwards_value_witness :
  (∀ a,
     yields (start (Resolve_Finally_Await (VInt 1) (Returns a))) (VInt 1, ErrNil) ∧
     ends_with (start (Resolve_Finally_Await (VInt 1) (Returns a)))
       (fun c => events (shared c) = [onFinally_called 0] ∧
                 settled 1 FULFILLED None None c ∧
                 pool (shared c) = [Ret tt; Ret tt])) ∧
  (yields (start (Resolve_Finally_Await (VInt 1) (Panics RecoveredNil))) (VInt 1, ErrNil) ∧
   ends_with (start (Resolve_Finally_Await (VInt 1) (Panics RecoveredNil)))
     (fun c => events (shared c) = [onFinally_called 0] ∧
               settled 1 FULFILLED None None c ∧
               pool (shared c) = [Ret tt; Ret tt])) ∧
  (∀ msg,
     yields (start (Resolve_Finally_Await (VInt 1) (Panics (RecoveredError msg)))) (VInt 1, ErrNil) ∧
     ends_with (start (Resolve_Finally_Await (VInt 1) (Panics (RecoveredError msg))))
       (fun c => events (shared c) = [onFinally_called 0] ∧
                 settled 1 FULFILLED None None c ∧
                 pool (shared c) = [Ret tt; Ret tt])) ∧
  (∀ s,
     yields (start (Resolve_Finally_Await (VInt 1) (Panics (RecoveredOther s)))) (VInt 1, ErrNil) ∧
     ends_with (start (Resolve_Finally_Await (VInt 1) (Panics (RecoveredOther s))))
       (fun c => events (shared c) = [onFinally_called 0] ∧
                 settled 1 FULFILLED None None c ∧
                 pool (shared c) = [Ret tt; Ret tt])).
Proof. apply Finally_forwards_value. reflexivity. Defined.

(** [Reject(e).Finally(onFinally).Await()] returns [(nil, e)] for every
    error, nil included, when the callback returns, and when it panics with
    nil, with an error whose [Error()] returns a text, or with a value that
    is no error; the callback is called once. *)
Theorem Finally_forwards_error (e : error) :
  (∀ a,
     yields (start (Reject_Finally_Await e (Returns a))) (VNil, e) ∧
     ends_with (start (Reject_Finally_Await e (Returns a)))
       (fun c => events (shared c) = [onFinally_called 0] ∧
                 settled 1 REJECTED None None c ∧
                 pool (shared c) = [Ret tt; Ret tt])) ∧
  (yields (start (Reject_Finally_Await e (Panics RecoveredNil))) (VNil, e) ∧
   ends_with (start (Reject_Finally_Await e (Panics RecoveredNil)))
     (fun c => events (shared c) = [onFinally_called 0] ∧
               settled 1 REJECTED None None c ∧
               pool (shared c) = [Ret tt; Ret tt])) ∧
  (∀ msg,
     yields (start (Reject_Finally_Await e (Panics (RecoveredError msg)))) (VNil, e) ∧
     ends_with (start (Reject_Finally_Await e (Panics (RecoveredError msg))))
       (fun c => events (shared c) = [onFinally_called 0] ∧
                 settled 1 REJECTED None None c ∧
                 pool (shared c) = [Ret tt; Ret tt])) ∧
  (∀ s,
     yields (start (Reject_Finally_Await e (Panics (RecoveredOther s)))) (VNil, e) ∧
     ends_with (start (Reject_Finally_Await e (Panics (RecoveredOther s))))
       (fun c => events (shared c) = [onFinally_called 0] ∧
                 settled 1 REJECTED None None c ∧
                 pool (shared c) = [Ret tt; Ret tt])).
Proof.
  split; [|split; [|split]]; intros; apply safe_both; explore_dag.
Qed.

(** [Finally] settles the promise it returns before it calls [onFinally]:
    on every run, once the callback has been called the new promise is
    fulfilled.  So [Await()] does not wait for the callback: under the
    schedule given, it has returned [(v, nil)] with the callback not called
    yet, and with the state of the new promise still [PENDING], the value
    being sent before the state is assigned. *)
Theorem Finally_callback_not_awaited (v : value) (onFinally : outcome value) :
  is_promise v = false →
  (∀ c, rtc step (start (Resolve_Finally_Await v onFinally)) c →
        events (shared c) = [] ∨ state_of c 1 = Some FULFILLED) ∧
  (∃ c, run (sched (replicate 4 Caller ++ replicate 3 (Goroutine 0) ++
                    replicate 3 (Goroutine 1) ++ replicate 4 Caller))
          (start (Resolve_Finally_Await v onFinally)) = Some c ∧
        caller c = Ret (v, ErrNil) ∧ events (shared c) = [] ∧
        state_of c 1 = Some PENDING).
Proof.
  intros Hv. split.
  - intros c Hr. pattern c. eapply safe_reach; [|exact Hr]. clear c Hr.
    destruct v; try discriminate Hv; destruct onFinally as [a|[]]; explore_dag.
  - destruct v; try discriminate Hv; destruct onFinally as [a|[]];
      (eexists; split; [vm_compute; reflexivity|vm_compute; by repeat split]).
Qed.

Lemma Finally_callback_not_awaited_witness :
  (∀ c, rtc step (start (Resolve_Finally_Await (VStr "ok") (Returns VNil))) c →
        events (shared c) = [] ∨ state_of c 1 = Some FULFILLED) ∧
  (∃ c, run (sched (replicate 4 Caller ++ replicate 3 (Goroutine 0) ++
                    replicate 3 (Goroutine 1) ++ replicate 4 Caller))
          (start (Resolve_Finally_Await (VStr "ok") (Returns VNil))) = Some c ∧
        caller c = Ret (VStr "ok", ErrNil) ∧ events (shared c) = [] ∧
        state_of c 1 = Some PENDING).
Proof. apply Finally_callback_not_awaited. reflexivity. Defined.

(** ** [Await] *)

(** [Await()] takes the settlement out of the channel: a second [Await()] on
    the same promise never returns, under any schedule.  The first one has
    stored what it received in the promise; the state stays what [resolve]
    or [reject] made it. *)
Theorem Await_twice_blocks (v : value) (e : error) :
  is_promise v = false →
  (blocks (start (Resolve_Await_Await v)) ∧
   ends_with (start (Resolve_Await_Await v))
     (fun c => settled 0 FULFILLED None None c ∧ result_of c 0 = Some v ∧
               pool (shared c) = [Ret tt])) ∧
  (blocks (start (Reject_Await_Await e)) ∧
   ends_with (start (Reject_Await_Await e))
     (fun c => settled 0 REJECTED None None c ∧ err_of c 0 = Some e ∧
               pool (shared c) = [Ret tt])).
Proof.
  intros Hv. split; apply safe_blocks.
  - destruct v; try discriminate Hv; explore_dag.
  - explore_dag.
Qed.

Lemma Await_twice_blocks_witness :
  (blocks (start (Resolve_Await_Await (VInt 7))) ∧
   ends_with (start (Resolve_Await_Await (VInt 7)))
     (fun c => settled 0 FULFILLED None None c ∧ result_of c 0 = Some (VInt 7) ∧
               pool (shared c) = [Ret tt])) ∧
  (blocks (start (Reject_Await_Await (Err "no"))) ∧
   ends_with (start (Reject_Await_Await (Err "no")))
     (fun c => settled 0 REJECTED None None c ∧ err_of c 0 = Some (Err "no") ∧
               pool (shared c) = [Ret tt])).
Proof. apply Await_twice_blocks. reflexivity. Defined.

(** A settlement is delivered once.  With a [Then] on a promise and the
    caller awaiting the same promise, one of the two receives the value and
    the other waits for ever: either [Await()] returns [(v, nil)], the
    handler is never called and the promise of [Then] stays pending, or the
    handler is called, its promise is fulfilled and [Await()] never returns.
    Both happen. *)
Theorem one_consumer_is_served (v v' : value) (f : value → outcome value)
    (g : error → outcome error) :
  is_promise v = false → is_promise v' = false → f v = Returns v' →
  (returns_only (start (Resolve_Then_Await_parent v f g)) (v, ErrNil) ∧
   ends_with (start (Resolve_Then_Await_parent v f g))
     (fun c => (caller c = Ret (v, ErrNil) ∧ events (shared c) = [] ∧
                settled 1 PENDING None None c) ∨
               (caller c = Await 0 ∧
                events (shared c) = [OnFulfill_called 0 v] ∧
                settled 1 FULFILLED (Some v') None c))) ∧
  (∃ c, run (sched (replicate 4 Caller ++ replicate 3 (Goroutine 0) ++
                    replicate 4 Caller))
          (start (Resolve_Then_Await_parent v f g)) = Some c ∧
        quiescent c ∧ caller c = Ret (v, ErrNil)) ∧
  (∃ c, run (sched (replicate 4 Caller ++ replicate 3 (Goroutine 0) ++
                    replicate 3 (Goroutine 1)) ++
             sched (replicate 3 (Goroutine 1)))
          (start (Resolve_Then_Await_parent v f g)) = Some c ∧
        quiescent c ∧ caller c = Await 0).
Proof.
  intros Hv Hv' Hf. split; [|split].
  - apply safe_may_yield.
    destruct v; try discriminate Hv; destruct v'; try discriminate Hv';
      explore_dag_using Hf.
  - destruct v; try discriminate Hv;
      (eexists; split; [vm_compute; reflexivity|vm_compute; by repeat split]).
  - destruct v; try discriminate Hv; destruct v'; try discriminate Hv';
      (eexists; split; [run_in_two Hf|vm_compute; by repeat split]).
Qed.

Lemma one_consumer_is_served_witness :
  (returns_only (start (Resolve_Then_Await_parent (VInt 1) Returns Returns))
     (VInt 1, ErrNil) ∧
   ends_with (start (Resolve_Then_Await_parent (VInt 1) Returns Returns))
     (fun c => (caller c = Ret (VInt 1, ErrNil) ∧ events (shared c) = [] ∧
                settled 1 PENDING None None c) ∨
               (caller c = Await 0 ∧
                events (shared c) = [OnFulfill_called 0 (VInt 1)] ∧
                settled 1 FULFILLED (Some (VInt 1)) None c))) ∧
  (∃ c, run (sched (replicate 4 Caller ++ replicate 3 (Goroutine 0) ++
                    replicate 4 Caller))
          (start (Resolve_Then_Await_parent (VInt 1) Returns Returns)) = Some c ∧
        quiescent c ∧ caller c = Ret (VInt 1, ErrNil)) ∧
  (∃ c, run (sched (replicate 4 Caller ++ replicate 3 (Goroutine 0) ++
                    replicate 3 (Goroutine 1)) ++
             sched (replicate 3 (Goroutine 1)))
          (start (Resolve_Then_Await_parent (VInt 1) Returns Returns)) = Some c ∧
        quiescent c ∧ caller c = Await 0).
Proof. apply one_consumer_is_served; reflexivity. Defined.

(** ** [Then] and [Catch] *)

(** The state of a fulfilled promise that a [Then] has consumed depends on
    the schedule.  [resolve] sends the value before it assigns [FULFILLED],
    and [Then] assigns [PENDING] once it has the value: run one after the
    other they leave the parent [PENDING]; with the reset between the send
    and the assignment they leave it [FULFILLED].  [Await()] returns
    [(f(v), nil)] either way. *)
Theorem Then_parent_state_race (v v' : value) (f : value → outcome value)
    (g : error → outcome error) :
  is_promise v = false → is_promise v' = false → f v = Returns v' →
  ends_with (start (Resolve_Then_Await v f g))
    (fun c => state_of c 0 = Some PENDING ∨ state_of c 0 = Some FULFILLED) ∧
  (∃ c, run (sched (replicate 4 Caller ++ replicate 3 (Goroutine 0) ++
                    replicate 3 (Goroutine 1)) ++
             sched (replicate 3 (Goroutine 1) ++ replicate 4 Caller))
          (start (Resolve_Then_Await v f g)) = Some c ∧
        quiescent c ∧ caller c = Ret (v', ErrNil) ∧
        state_of c 0 = Some PENDING) ∧
  (∃ c, run (sched (replicate 4 Caller ++ replicate 2 (Goroutine 0) ++
                    replicate 2 (Goroutine 1) ++ [Goroutine 0; Goroutine 1]) ++
             sched (replicate 3 (Goroutine 1) ++ replicate 4 Caller))
          (start (Resolve_Then_Await v f g)) = Some c ∧
        quiescent c ∧ caller c = Ret (v', ErrNil) ∧
        state_of c 0 = Some FULFILLED).
Proof.
  intros Hv Hv' Hf. split; [|split].
  - apply (safe_ends_with
             (verdict (Some (v', ErrNil))
                (fun c => state_of c 0 = Some PENDING ∨
                          state_of c 0 = Some FULFILLED))).
    { by intros c [_ H]. }
    destruct v; try discriminate Hv; destruct v'; try discriminate Hv';
      explore_dag_using Hf.
  - destruct v; try discriminate Hv; destruct v'; try discriminate Hv';
      (eexists; split; [run_in_two Hf|vm_compute; by repeat split]).
  - destruct v; try discriminate Hv; destruct v'; try discriminate Hv';
      (eexists; split; [run_in_two Hf|vm_compute; by repeat split]).
Qed.

Lemma Then_parent_state_race_witness :
  ends_with (start (Resolve_Then_Await (VInt 1) Returns Returns))
    (fun c => state_of c 0 = Some PENDING ∨ state_of c 0 = Some FULFILLED) ∧
  (∃ c, run (sched (replicate 4 Caller ++ replicate 3 (Goroutine 0) ++
                    replicate 3 (Goroutine 1)) ++
             sched (replicate 3 (Goroutine 1) ++ replicate 4 Caller))
          (start (Resolve_Then_Await (VInt 1) Returns Returns)) = Some c ∧
        quiescent c ∧ caller c = Ret (VInt 1, ErrNil) ∧
        state_of c 0 = Some PENDING) ∧
  (∃ c, run (sched (replicate 4 Caller ++ replicate 2 (Goroutine 0) ++
                    replicate 2 (Goroutine 1) ++ [Goroutine 0; Goroutine 1]) ++
             sched (replicate 3 (Goroutine 1) ++ replicate 4 Caller))
          (start (Resolve_Then_Await (VInt 1) Returns Returns)) = Some c ∧
        quiescent c ∧ caller c = Ret (VInt 1, ErrNil) ∧
        state_of c 0 = Some FULFILLED).
Proof. apply Then_parent_state_race; reflexivity. Defined.

(** A promise returned by the fulfill handler of [Then] is flattened, as one
    given to [Resolve] is: the promise of [Then] settles as the returned
    promise does, fulfilled with its value, or rejected with its error when
    that error is not nil; [Await()] returns that value or that error, not
    the promise. *)
Theorem Then_flattens_returned_promise (w v : value) (msg : string)
    (g : error → outcome error) :
  is_promise w = false → is_promise v = false →
  (yields (start (Then_Resolve_Await w v g)) (w, ErrNil) ∧
   ends_with (start (Then_Resolve_Await w v g))
     (fun c => events (shared c) = [OnFulfill_called 1 v] ∧
               settled 0 FULFILLED None None c ∧
               settled 2 FULFILLED None None c)) ∧
  (yields (start (Then_Reject_Await (Err msg) v g)) (VNil, Err msg) ∧
   ends_with (start (Then_Reject_Await (Err msg) v g))
     (fun c => events (shared c) = [OnFulfill_called 1 v] ∧
               settled 0 REJECTED None None c ∧
               settled 2 REJECTED None None c)).
Proof.
  intros Hw Hv. split; apply safe_both.
  - destruct w; try discriminate Hw; destruct v; try discriminate Hv;
      explore_dag.
  - destruct v; try discriminate Hv; explore_dag.
Qed.

Lemma Then_flattens_returned_promise_witness :
  (yields (start (Then_Resolve_Await (VInt 2) (VInt 1) Returns)) (VInt 2, ErrNil) ∧
   ends_with (start (Then_Resolve_Await (VInt 2) (VInt 1) Returns))
     (fun c => events (shared c) = [OnFulfill_called 1 (VInt 1)] ∧
               settled 0 FULFILLED None None c ∧
               settled 2 FULFILLED None None c)) ∧
  (yields (start (Then_Reject_Await (Err "boom") (VInt 1) Returns))
     (VNil, Err "boom") ∧
   ends_with (start (Then_Reject_Await (Err "boom") (VInt 1) Returns))
     (fun c => events (shared c) = [OnFulfill_called 1 (VInt 1)] ∧
               settled 0 REJECTED None None c ∧
               settled 2 REJECTED None None c)).
Proof. apply Then_flattens_returned_promise; reflexivity. Defined.

(** [Reject(e).Catch(h).Await()] where [h(e)] returns [e']: [Await()] returns
    [(nil, e')]; [h] is called once, with [e]; both promises end rejected. *)
Theorem Catch_maps_error (e e' : error) (h : error → outcome error) :
  h e = Returns e' →
  yields (start (Reject_Catch_Await e h)) (VNil, e') ∧
  ends_with (start (Reject_Catch_Await e h))
    (fun c => events (shared c) = [OnRejection_called 0 e] ∧
              settled 0 REJECTED None None c ∧
              settled 1 REJECTED None None c).
Proof.
  intros Hh. apply safe_both. explore_dag_using Hh.
Qed.

Lemma Catch_maps_error_witness :
  yields (start (Reject_Catch_Await (Err "boom") (fun _ => Returns (Err "bang"))))
    (VNil, Err "bang") ∧
  ends_with (start (Reject_Catch_Await (Err "boom") (fun _ => Returns (Err "bang"))))
    (fun c => events (shared c) = [OnRejection_called 0 (Err "boom")] ∧
              settled 0 REJECTED None None c ∧
              settled 1 REJECTED None None c).
Proof. apply Catch_maps_error. reflexivity. Defined.

(** [Reject(e).Catch(h).Await()] where [h(e)] panics with an error: the
    promise of [Catch] is rejected with the text of that error after
    "panic recovery with error: ". *)
Theorem Catch_panic_rejects (e : error) (msg : string)
    (h : error → outcome error) :
  h e = Panics (RecoveredError msg) →
  yields (start (Reject_Catch_Await e h))
    (VNil, Err ("panic recovery with error: " +:+ msg)) ∧
  ends_with (start (Reject_Catch_Await e h))
    (fun c => events (shared c) = [OnRejection_called 0 e] ∧
              settled 1 REJECTED None None c).
Proof.
  intros Hh. apply safe_both. explore_dag_using Hh.
Qed.

Lemma Catch_panic_rejects_witness :
  yields (start (Reject_Catch_Await ErrNil main_Catch))
    (VNil, Err ("panic recovery with error: " +:+
                "runtime error: invalid memory address or nil pointer dereference")) ∧
  ends_with (start (Reject_Catch_Await ErrNil main_Catch))
    (fun c => events (shared c) = [OnRejection_called 0 ErrNil] ∧
              settled 1 REJECTED None None c).
Proof. apply Catch_panic_rejects. reflexivity. Defined.

(** ** The goroutine of [New] *)


(** ** Whose state a method assigns *)

(** [resolve], [reject] and [handlePanic] assign the state of their own
    promise only, and [Await] assigns no state at all: a promise that
    [resolve] is given and awaits keeps the state it settled with, where a
    promise that [Then] consumes is reset. *)
Theorem settling_keeps_other_states (p q : loc) (v : value) (e : error)
    (x : recovered) :
  p ≠ q →
  keeps_state p (resolve q v) ∧ keeps_state p (reject q e) ∧
  keeps_state p (handlePanic q x) ∧
  keeps_state p (Await q) ∧ keeps_state q (Await q) ∧
  keeps_state p (resolve q (VPromise p)).
Proof.
  intros Hne. repeat split; apply no_write_keeps_state.
  - by intros ->%resolve_writes.
  - by intros ->%reject_writes.
  - by intros ->%handlePanic_writes.
  - apply Await_writes.
  - apply Await_writes.
  - by intros ->%resolve_writes.
Qed.

Lemma settling_keeps_other_states_witness :
  keeps_state 0 (resolve 1 (VInt 1)) ∧ keeps_state 0 (reject 1 (Err "no")) ∧
  keeps_state 0 (handlePanic 1 (RecoveredOther "boom")) ∧
  keeps_state 0 (Await 1) ∧ keeps_state 1 (Await 1) ∧
  keeps_state 0 (resolve 1 (VPromise 0)).
Proof. apply (settling_keeps_other_states 0%nat 1%nat). lia. Defined.

(** ** The demonstration in [main] *)

(** Every configuration [main] goes through: while the caller has not
    returned somebody can move, and when it has returned, it has returned
    [(nil, nil)] and the handlers before [onFinally] have been called. *)
Lemma main_explored (testNum : Z) :
  safe (on_return (fun r c =>
          r = (VNil, ErrNil) ∧
          ∃ last, (last = [] ∨ last = [onFinally_called 3]) ∧
            events (shared c)
            = (if testNum =? 3 then
                 [OnFulfill_called 0 (VInt 3); OnFulfill_called 1 (VInt 4)]
               else
                 [OnRejection_called 0 (main_error testNum);
                  OnRejection_called 1 (main_error testNum);
                  OnRejection_called 2 (main_error testNum)]) ++ last))
    (start (main testNum)).
Proof.
  eapply (safe_impl (on_return (fun r c =>
            r = (VNil, ErrNil) ∧
            (events (shared c)
             = (if testNum =? 3 then
                  [OnFulfill_called 0 (VInt 3); OnFulfill_called 1 (VInt 4)]
                else
                  [OnRejection_called 0 (main_error testNum);
                   OnRejection_called 1 (main_error testNum);
                   OnRejection_called 2 (main_error testNum)]) ∨
             events (shared c)
             = (if testNum =? 3 then
                  [OnFulfill_called 0 (VInt 3); OnFulfill_called 1 (VInt 4)]
                else
                  [OnRejection_called 0 (main_error testNum);
                   OnRejection_called 1 (main_error testNum);
                   OnRejection_called 2 (main_error testNum)])
               ++ [onFinally_called 3])))).
  { intros c. unfold on_return. destruct (caller c); try done.
    intros [-> [He|He]]; (split; [done|]).
    - exists []. split; [by left|]. by rewrite app_nil_r.
    - exists [onFinally_called 3]. split; [by right|done]. }
  unfold main, main_executor, main_error.
  destruct (Z.eqb_spec testNum 3) as [->|_].
  - explore_main.
  - generalize (pretty testNum +:+ " is not equal to 3"). intros msg.
    explore_main.
Qed.

(** [main] returns [(nil, nil)] from [p.Await()] under every schedule,
    whatever [testNum] is: every run of the program is finite and ends with
    the caller having returned that pair, none ends blocked.  When [main]
    returns, with [testNum] equal to 3 the two fulfill handlers have been
    called, on 3 and on 4, and the handler of [Catch] has not; otherwise
    the error has gone through the two reject handlers and the handler of
    [Catch].  [onFinally] has been called at most once, after them. *)
Theorem main_returns_nil (testNum : Z) :
  (∃ n, ∀ k c, nsteps program_step k (start (main testNum)) c → (k ≤ n)%nat) ∧
  (∀ c, rtc program_step (start (main testNum)) c →
        (∀ c', ¬ program_step c c') →
        caller c = Ret (VNil, ErrNil) ∧
        ∃ last, (last = [] ∨ last = [onFinally_called 3]) ∧
          events (shared c)
          = (if testNum =? 3 then
               [OnFulfill_called 0 (VInt 3); OnFulfill_called 1 (VInt 4)]
             else
               [OnRejection_called 0 (main_error testNum);
                OnRejection_called 1 (main_error testNum);
                OnRejection_called 2 (main_error testNum)]) ++ last).
Proof.
  destruct (safe_program _ _ (main_explored testNum)) as [Hfinite Hend].
  split; [exact Hfinite|].
  intros c Hr Hlast. destruct (Hend c Hr Hlast) as (r & Hc & -> & Hev).
  by split.
Qed.

(** [p.Await()] does not wait for the callback of [Finally]: under the
    schedule that runs the goroutines one after the other and lets the
    caller go on as soon as the last promise has its value or its error,
    [Await()] has returned and [onFinally] has not been called; [main]
    returns then. *)
Theorem main_may_return_before_onFinally (testNum : Z) :
  ∃ c, run (sched (replicate 10 Caller ++ replicate 3 (Goroutine 0) ++
                   if testNum =? 3 then
                     replicate 6 (Goroutine 1) ++ replicate 6 (Goroutine 2) ++
                     replicate 4 (Goroutine 3) ++ replicate 3 (Goroutine 4) ++
                     replicate 4 Caller
                   else
                     replicate 5 (Goroutine 1) ++ replicate 5 (Goroutine 2) ++
                     replicate 5 (Goroutine 3) ++ replicate 4 (Goroutine 4) ++
                     replicate 4 Caller))
         (start (main testNum)) = Some c ∧
       caller c = Ret (VNil, ErrNil) ∧
       onFinally_called 3 ∉ events (shared c).
Proof.
  unfold main, main_executor, main_error.
  destruct (Z.eqb_spec testNum 3) as [->|_].
  - eexists. split; [vm_compute; reflexivity|].
    split; [reflexivity|]. cbn [events shared].
    rewrite !elem_of_cons, elem_of_nil. naive_solver.
  - generalize (pretty testNum +:+ " is not equal to 3"). intros msg.
    eexists. split; [vm_compute; reflexivity|].
    split; [reflexivity|]. cbn [events shared].
    rewrite !elem_of_cons, elem_of_nil. naive_solver.
Qed.

(** ** Any number of settlements *)

(** After a first [resolve(v)] has run, whatever calls of [resolve] and
    [reject] the executor goes on to make, each reads the state and
    returns: the caller in [Await()] gets [(v, nil)], and the goroutine
    returns.  By induction on the
    calls that are left. *)
Lemma settled_calls_dropped (v : value) (calls : list (value + error)) :
  safe (verdict (Some (v, ErrNil))
          (fun c => settled 0 FULFILLED None None c ∧
                    pool (shared c) = [Ret tt]))
    (mkConfig (Await 0)
       (mkStore [mkPromise FULFILLED (Some v) None VNil ErrNil] []
          [goroutine 0 (settles calls)])).
Proof.
  induction calls as [|[v'|e'] calls IH].
  - explore_dag.
  - seed [Caller] IH. explore_dag.
  - seed [Caller] IH. explore_dag.
Qed.

Lemma rejected_calls_dropped (e : error) (calls : list (value + error)) :
  safe (verdict (Some (VNil, e))
          (fun c => settled 0 REJECTED None None c ∧
                    pool (shared c) = [Ret tt]))
    (mkConfig (Await 0)
       (mkStore [mkPromise REJECTED None (Some e) VNil ErrNil] []
          [goroutine 0 (settles calls)])).
Proof.
  induction calls as [|[v'|e'] calls IH].
  - explore_dag.
  - seed [Caller] IH. explore_dag.
  - seed [Caller] IH. explore_dag.
Qed.

(** The first settlement wins, however many follow: for an executor that
    makes any sequence of calls of [resolve] and [reject], with any
    arguments, after a first [resolve(v)] with [v] not a promise, [Await()]
    returns [(v, nil)] and the promise ends fulfilled; after a first
    [reject(e)], [Await()] returns [(nil, e)] and the promise ends
    rejected.  Under every schedule, and the goroutine of the executor
    returns: no call is left blocked. *)
Theorem first_settlement_wins (v : value) (e : error)
    (calls : list (value + error)) :
  is_promise v = false →
  (yields (start (New_Await (settles (inl v :: calls)))) (v, ErrNil) ∧
   ends_with (start (New_Await (settles (inl v :: calls))))
     (fun c => settled 0 FULFILLED None None c ∧
               pool (shared c) = [Ret tt])) ∧
  (yields (start (New_Await (settles (inr e :: calls)))) (VNil, e) ∧
   ends_with (start (New_Await (settles (inr e :: calls))))
     (fun c => settled 0 REJECTED None None c ∧
               pool (shared c) = [Ret tt])).
Proof.
  intros Hv. split; apply safe_both.
  - pose proof (settled_calls_dropped v calls) as Htail.
    destruct v; try discriminate Hv; seed [Caller] Htail; explore_dag.
  - pose proof (rejected_calls_dropped e calls) as Htail.
    seed [Caller] Htail. explore_dag.
Qed.

Lemma first_settlement_wins_witness :
  (yields (start (New_Await (settles [inl (VInt 1); inr (Err "late");
                                      inl (VPromise 7); inl (VInt 2)])))
     (VInt 1, ErrNil) ∧
   ends_with (start (New_Await (settles [inl (VInt 1); inr (Err "late");
                                         inl (VPromise 7); inl (VInt 2)])))
     (fun c => settled 0 FULFILLED None None c ∧
               pool (shared c) = [Ret tt])) ∧
  (yields (start (New_Await (settles [inr (Err "no"); inr (Err "late");
                                      inl (VPromise 7); inl (VInt 2)])))
     (VNil, Err "no") ∧
   ends_with (start (New_Await (settles [inr (Err "no"); inr (Err "late");
                                         inl (VPromise 7); inl (VInt 2)])))
     (fun c => settled 0 REJECTED None None c ∧
               pool (shared c) = [Ret tt])).
Proof. apply first_settlement_wins. reflexivity. Defined.

(** ** What a [Then] sees of an executor that settles several times *)

(** The parent is settled and the [Then] is past its reset: the calls the
    executor has left read a state that is not [PENDING] and return. *)
Lemma later_calls_dropped (v v' : value) (f : value → outcome value)
    (g : error → outcome error) (parent : Promise)
    (calls : list (value + error)) :
  f v = Returns v' → is_promise v' = false →
  state parent = FULFILLED ∨ state parent = REJECTED →
  safe (verdict (Some (v', ErrNil))
          (fun c => events (shared c) = [OnFulfill_called 0 v] ∧
                    settled 1 FULFILLED None None c ∧
                    pool (shared c) = [Ret tt; Ret tt]))
    (mkConfig (Await 1)
       (mkStore [parent; fresh] []
          [goroutine 0 (settles calls);
           defer_recover (handlePanic 1)
             (x ← call (OnFulfill_called 0 v) (f v); resolve 1 x)])).
Proof.
  intros Hf Hv' Hst. destruct parent as [st cv ce r e]. simpl in Hst.
  rewrite Hf.
  induction calls as [|[v2|e2] calls IH].
  - destruct Hst as [-> | ->]; destruct v'; try discriminate Hv';
      explore_dag.
  - destruct Hst as [-> | ->]; destruct v'; try discriminate Hv';
      seed [Caller; Goroutine 1] IH; explore_dag.
  - destruct Hst as [-> | ->]; destruct v'; try discriminate Hv';
      seed [Caller; Goroutine 1] IH; explore_dag.
Qed.

(** The first value is in the channel of the parent, the state assigned:
    the [Then] made next receives it.  A call the executor makes after the
    reset settles the parent again, and the calls after that one are
    dropped. *)
Lemma first_value_reaches_Then (v v' : value) (f : value → outcome value)
    (g : error → outcome error) (calls : list (value + error)) :
  f v = Returns v' → is_promise v' = false → Forall plain_call calls →
  safe (verdict (Some (v', ErrNil))
          (fun c => events (shared c) = [OnFulfill_called 0 v] ∧
                    settled 1 FULFILLED None None c ∧
                    pool (shared c) = [Ret tt; Ret tt]))
    (mkConfig (q ← Then 0 f g; Await q)
       (mkStore [mkPromise FULFILLED (Some v) None VNil ErrNil] []
          [goroutine 0 (settles calls)])).
Proof.
  intros Hf Hv' Hplain.
  induction Hplain as [|[v2|e2] calls Hcall _ IH].
  - destruct v'; try discriminate Hv'; explore_dag_using Hf.
  - pose proof (later_calls_dropped v v' f g
                  (mkPromise FULFILLED (Some v2) None VNil ErrNil) calls
                  Hf Hv' (or_introl eq_refl)) as Hlater.
    rewrite Hf in Hlater. simpl in Hcall.
    destruct v2; try discriminate Hcall; destruct v'; try discriminate Hv';
      seed_using Hf [Caller; Goroutine 1] IH;
      seed_using Hf [Caller; Goroutine 1] Hlater;
      explore_dag_using Hf.
  - pose proof (later_calls_dropped v v' f g
                  (mkPromise REJECTED None (Some e2) VNil ErrNil) calls
                  Hf Hv' (or_intror eq_refl)) as Hlater.
    rewrite Hf in Hlater.
    destruct v'; try discriminate Hv';
      seed_using Hf [Caller; Goroutine 1] IH;
      seed_using Hf [Caller; Goroutine 1] Hlater;
      explore_dag_using Hf.
Qed.

(** The first error is in the channel of the parent, the state assigned:
    the state stays [REJECTED], and every call the executor has left is
    dropped. *)
Lemma first_error_reaches_Then (e e' : error) (f : value → outcome value)
    (g : error → outcome error) (calls : list (value + error)) :
  g e = Returns e' →
  safe (verdict (Some (VNil, e'))
          (fun c => events (shared c) = [OnRejection_called 0 e] ∧
                    settled 0 REJECTED None None c ∧
                    settled 1 REJECTED None None c ∧
                    pool (shared c) = [Ret tt; Ret tt]))
    (mkConfig (q ← Then 0 f g; Await q)
       (mkStore [mkPromise REJECTED None (Some e) VNil ErrNil] []
          [goroutine 0 (settles calls)])).
Proof.
  intros Hg.
  induction calls as [|[v2|e2] calls IH].
  - explore_dag_using Hg.
  - seed_using Hg [Caller; Goroutine 1] IH. explore_dag_using Hg.
  - seed_using Hg [Caller; Goroutine 1] IH. explore_dag_using Hg.
Qed.

(** A [Then] sees the first settlement only.  For an executor that calls
    [resolve(v)] and then makes any sequence of calls of [resolve] and
    [reject] that give [resolve] no promise,
    [New(executor).Then(f, g).Await()] returns [(f(v), nil)]: [f] is called
    once, with [v], and [g] is not called, although a call made after the
    reset settles the parent a second time.  For an executor that calls
    [reject(e)] first, [Await()] returns [(nil, g(e))] whatever calls
    follow: [g] is called once, with [e], and the parent stays rejected.
    Both goroutines return: no call is left blocked on a channel. *)
Theorem Then_sees_first_settlement (v v' : value) (e e' : error)
    (f : value → outcome value) (g : error → outcome error)
    (calls : list (value + error)) :
  is_promise v = false → is_promise v' = false →
  f v = Returns v' → g e = Returns e' →
  (Forall plain_call calls →
   yields (start (New_Then_Await (settles (inl v :: calls)) f g)) (v', ErrNil) ∧
   ends_with (start (New_Then_Await (settles (inl v :: calls)) f g))
     (fun c => events (shared c) = [OnFulfill_called 0 v] ∧
               settled 1 FULFILLED None None c ∧
               pool (shared c) = [Ret tt; Ret tt])) ∧
  (yields (start (New_Then_Await (settles (inr e :: calls)) f g)) (VNil, e') ∧
   ends_with (start (New_Then_Await (settles (inr e :: calls)) f g))
     (fun c => events (shared c) = [OnRejection_called 0 e] ∧
               settled 0 REJECTED None None c ∧
               settled 1 REJECTED None None c ∧
               pool (shared c) = [Ret tt; Ret tt])).
Proof.
  intros Hv Hv' Hf Hg. split.
  - intros Hplain. apply safe_both.
    pose proof (first_value_reaches_Then v v' f g calls Hf Hv' Hplain)
      as Hfirst.
    pose proof (later_calls_dropped v v' f g
                  (mkPromise FULFILLED None None VNil ErrNil) calls
                  Hf Hv' (or_introl eq_refl)) as Hlater.
    rewrite Hf in Hlater.
    destruct v; try discriminate Hv; destruct v'; try discriminate Hv';
      seed_using Hf [Caller; Goroutine 1] Hfirst;
      seed_using Hf [Caller; Goroutine 1] Hlater;
      explore_dag_using Hf.
  - apply safe_both.
    pose proof (first_error_reaches_Then e e' f g calls Hg) as Hfirst.
    seed_using Hg [Caller; Goroutine 1] Hfirst. explore_dag_using Hg.
Qed.

Lemma Then_sees_first_settlement_witness :
  (Forall plain_call [inr (Err "late"); inl (VInt 2); inl (VInt 3)] →
   yields (start (New_Then_Await
                    (settles [inl (VInt 1); inr (Err "late"); inl (VInt 2);
                              inl (VInt 3)])
                    Returns Returns)) (VInt 1, ErrNil) ∧
   ends_with (start (New_Then_Await
                       (settles [inl (VInt 1); inr (Err "late"); inl (VInt 2);
                                 inl (VInt 3)])
                       Returns Returns))
     (fun c => events (shared c) = [OnFulfill_called 0 (VInt 1)] ∧
               settled 1 FULFILLED None None c ∧
               pool (shared c) = [Ret tt; Ret tt])) ∧
  (yields (start (New_Then_Await
                    (settles [inr (Err "no"); inr (Err "late"); inl (VInt 2);
                              inl (VInt 3)])
                    Returns Returns)) (VNil, Err "no") ∧
   ends_with (start (New_Then_Await
                       (settles [inr (Err "no"); inr (Err "late"); inl (VInt 2);
                                 inl (VInt 3)])
                       Returns Returns))
     (fun c => events (shared c) = [OnRejection_called 0 (Err "no")] ∧
               settled 0 REJECTED None None c ∧
               settled 1 REJECTED None None c ∧
               pool (shared c) = [Ret tt; Ret tt])).
Proof. apply Then_sees_first_settlement; reflexivity. Defined.

(** ** An executor that never settles *)

(** When the executor returns without a call of [resolve] or of [reject],
    nothing settles: every promise chained after it stays pending, no
    handler is called, not [onFinally] either, and [Await()] never returns.
    The goroutines of [Then], [Catch] and [Finally] stay blocked in their
    [select]. *)
Theorem unsettled_chain_blocks (f : value → outcome value)
    (g h : error → outcome error) (onFinally : outcome value) :
  blocks (start (New_chain_Await idle f g h onFinally)) ∧
  ends_with (start (New_chain_Await idle f g h onFinally))
    (fun c => events (shared c) = [] ∧
              heap (shared c) = replicate 4 fresh ∧
              caller c = Await 3 ∧
              pool (shared c) !! 0%nat = Some (Ret tt) ∧
              pool (shared c) !! 1%nat
              = Some (goroutine 1 (Then_executor 0 f g)) ∧
              pool (shared c) !! 2%nat
              = Some (goroutine 2 (Catch_executor 1 h)) ∧
              pool (shared c) !! 3%nat
              = Some (goroutine 3 (Finally_executor 2 onFinally))).
Proof.
  apply safe_blocks. explore_dag.
Qed.
